(** * Dots and Boxes (game.js): a shallow embedding and its properties

    The development follows [game.js] function by function.  The module-level
    object [state] becomes the record [state], threaded explicitly through
    every handler; [config] becomes the record [config].  Writes to the page
    (the game-over dialog, the canvas, the score widgets) are returned by each
    handler as a list of [effect]s, in the order the script performs them.

    Numbers.  Grid coordinates, player indices and scores are JavaScript
    integers and are modelled in [Z].  Pointer coordinates are modelled in
    [Q], with exact arithmetic in place of doubles; [Math.round v] is
    [Qfloor (v + 1/2)] and [Math.abs] is [Qabs].  Template literals print
    integers in decimal ([pretty] on [Z]).  The remainder operator [%] is
    [Z.rem]; it is only ever applied to a non-negative dividend and the
    number of players, and the theorems that depend on its value assume that
    there is at least one player (JavaScript would produce NaN for an empty
    player list).

    Containers.  The [Set] of edge keys is a [gset string], the [Map] of box
    owners a [gmap string Z], and the object [scores], which is only indexed
    by player numbers, a [gmap Z Z].  *)

From Stdlib Require Import ZArith QArith Qround Qabs Lia Lqa Ascii.
From stdpp Require Import gmap strings list fin_maps pretty.

Local Open Scope Z_scope.

(** ** Configuration and state *)

(** [config]: the fields of the object that the game logic and the hit test
    read.  Colours, [dotRadius] and [lineWidth] only matter to the drawing
    code. *)
Record config := {
  rows : Z;
  cols : Z;
  cellSize : Z;
  gridPaddingTop : Z;
  margin : Z
}.

(** The literal of the repository. *)
Definition defaultConfig : config :=
  {| rows := 4; cols := 6; cellSize := 90; gridPaddingTop := 30; margin := 20 |}.

(** The object returned by [findNearestEdge]. *)
Record edge := {
  r1 : Z;
  c1 : Z;
  r2 : Z;
  c2 : Z;
  isHorizontal : bool
}.

(** The objects [{ r, c }] pushed by [checkForCompletedBoxes]. *)
Record box := { box_r : Z; box_c : Z }.

Global Instance edge_eq_dec : EqDecision edge.
Proof. solve_decision. Defined.
Global Instance box_eq_dec : EqDecision box.
Proof. solve_decision. Defined.

(** [state]: [scores] is the object indexed by player number, [edges] the
    [Set] of edge keys, [boxes] the [Map] from box keys to the owner.  The
    handles [canvas] and [ctx] are left out. *)
Record state := {
  players : list string;
  currentPlayer : Z;
  scores : gmap Z Z;
  edges : gset string;
  boxes : gmap string Z;
  highlightedEdge : option edge;
  gameOver : bool;
  canvasSize : Z * Z;
  boardOffset : Z * Z
}.

Definition set_currentPlayer (p : Z) (st : state) : state :=
  {| players := players st; currentPlayer := p; scores := scores st;
     edges := edges st; boxes := boxes st;
     highlightedEdge := highlightedEdge st; gameOver := gameOver st;
     canvasSize := canvasSize st; boardOffset := boardOffset st |}.

Definition set_scores (s : gmap Z Z) (st : state) : state :=
  {| players := players st; currentPlayer := currentPlayer st; scores := s;
     edges := edges st; boxes := boxes st;
     highlightedEdge := highlightedEdge st; gameOver := gameOver st;
     canvasSize := canvasSize st; boardOffset := boardOffset st |}.

Definition set_edges (e : gset string) (st : state) : state :=
  {| players := players st; currentPlayer := currentPlayer st;
     scores := scores st; edges := e; boxes := boxes st;
     highlightedEdge := highlightedEdge st; gameOver := gameOver st;
     canvasSize := canvasSize st; boardOffset := boardOffset st |}.

Definition set_boxes (b : gmap string Z) (st : state) : state :=
  {| players := players st; currentPlayer := currentPlayer st;
     scores := scores st; edges := edges st; boxes := b;
     highlightedEdge := highlightedEdge st; gameOver := gameOver st;
     canvasSize := canvasSize st; boardOffset := boardOffset st |}.

Definition set_highlightedEdge (h : option edge) (st : state) : state :=
  {| players := players st; currentPlayer := currentPlayer st;
     scores := scores st; edges := edges st; boxes := boxes st;
     highlightedEdge := h; gameOver := gameOver st;
     canvasSize := canvasSize st; boardOffset := boardOffset st |}.

Definition set_gameOver (g : bool) (st : state) : state :=
  {| players := players st; currentPlayer := currentPlayer st;
     scores := scores st; edges := edges st; boxes := boxes st;
     highlightedEdge := highlightedEdge st; gameOver := g;
     canvasSize := canvasSize st; boardOffset := boardOffset st |}.

Definition set_canvas (size offset : Z * Z) (st : state) : state :=
  {| players := players st; currentPlayer := currentPlayer st;
     scores := scores st; edges := edges st; boxes := boxes st;
     highlightedEdge := highlightedEdge st; gameOver := gameOver st;
     canvasSize := size; boardOffset := offset |}.

(** What a handler does to the page, in order. *)
Inductive effect :=
  | SetWinnerText (text : string)      (* winner-text .textContent = text *)
  | SetGameOverDisplay (v : string)    (* game-over .style.display = v *)
  | DrawBoard                          (* drawBoard() *)
  | UpdateUI.                          (* updateUI() *)

(** ** Keys *)

(** The template literal with four holes: r1,c1:r2,c2 *)
Definition key4 (a b c d : Z) : string :=
  pretty a +:+ "," +:+ pretty b +:+ ":" +:+ pretty c +:+ "," +:+ pretty d.

Definition edgeKey (e : edge) : string := key4 (r1 e) (c1 e) (r2 e) (c2 e).

(** The template literal with two holes: r,c *)
Definition boxKey (r c : Z) : string := pretty r +:+ "," +:+ pretty c.

(** ** The initial state and [initGame] *)

(** The literal bound to [state], for a given array of player names
    (the repository has A and B). *)
Definition state0 (ps : list string) : state :=
  {| players := ps; currentPlayer := 0; scores := ∅; edges := ∅; boxes := ∅;
     highlightedEdge := None; gameOver := false;
     canvasSize := (0, 0); boardOffset := (0, 0) |}.

(** The indices visited by [state.players.forEach((_, i) => ...)]. *)
Definition indices (ps : list string) : list Z :=
  Z.of_nat <$> seq 0 (length ps).

(** [state.players.forEach((_, i) => { state.scores[i] = 0; })] *)
Definition zeroScores (st : state) : state :=
  set_scores (foldl (λ s i, <[i := 0]> s) (scores st) (indices (players st))) st.

Definition setupCanvas (cfg : config) (st : state) : state :=
  let width := cols cfg * cellSize cfg + margin cfg * 2 in
  let height := rows cfg * cellSize cfg + margin cfg * 2 + gridPaddingTop cfg in
  set_canvas (width, height) (margin cfg, margin cfg + gridPaddingTop cfg) st.

Definition initGame (cfg : config) (st : state) : state * list effect :=
  let st := zeroScores st in
  let st := setupCanvas cfg st in
  (st, [DrawBoard; UpdateUI]).

(** ** Hit testing *)

Definition Qltb (a b : Q) : bool := negb (Qle_bool b a).

(** [Math.round]: the nearest integer, halves going up. *)
Definition Math_round (v : Q) : Z := Qfloor (v + (1 # 2))%Q.

(** [x] and [y] are the pointer position relative to the canvas
    ([event.clientX - rect.left] and [event.clientY - rect.top]).  The
    variables [cellX] and [cellY] of the source are never read.  Division by
    a [cellSize] of zero gives an infinity or NaN in JavaScript, for which
    all the range tests are false; the first test below stands for that. *)
Definition findNearestEdge (cfg : config) (st : state) (x y : Q) : option edge :=
  if cellSize cfg =? 0 then None else
  let gridX :=
    Math_round ((x - inject_Z (fst (boardOffset st))) / inject_Z (cellSize cfg))%Q in
  let gridY :=
    Math_round ((y - inject_Z (snd (boardOffset st))) / inject_Z (cellSize cfg))%Q in
  if Qltb (Qabs (y - inject_Z (snd (boardOffset st) + gridY * cellSize cfg))%Q) 15%Q
     && (0 <=? gridX) && (gridX <? cols cfg - 1)
     && (0 <=? gridY) && (gridY <? rows cfg)
  then Some {| r1 := gridY; c1 := gridX; r2 := gridY; c2 := gridX + 1;
               isHorizontal := true |}
  else if Qltb (Qabs (x - inject_Z (fst (boardOffset st) + gridX * cellSize cfg))%Q) 15%Q
     && (0 <=? gridY) && (gridY <? rows cfg - 1)
     && (0 <=? gridX) && (gridX <? cols cfg)
  then Some {| r1 := gridY; c1 := gridX; r2 := gridY + 1; c2 := gridX;
               isHorizontal := false |}
  else None.

(** ** Completion detection *)

Definition has (k : string) (st : state) : bool := bool_decide (k ∈ edges st).

Definition checkForCompletedBoxes (cfg : config) (st : state) (e : edge) : list box :=
  if isHorizontal e then
    (if 0 <? r1 e then
       let topEdge := key4 (r1 e - 1) (c1 e) (r1 e - 1) (c2 e) in
       let leftEdge := key4 (r1 e - 1) (c1 e) (r1 e) (c1 e) in
       let rightEdge := key4 (r1 e - 1) (c2 e) (r1 e) (c2 e) in
       if has topEdge st && has leftEdge st && has rightEdge st
       then [ {| box_r := r1 e - 1; box_c := c1 e |} ] else []
     else [])
    ++
    (if r1 e <? rows cfg - 1 then
       let bottomEdge := key4 (r1 e + 1) (c1 e) (r1 e + 1) (c2 e) in
       let leftEdge := key4 (r1 e) (c1 e) (r1 e + 1) (c1 e) in
       let rightEdge := key4 (r1 e) (c2 e) (r1 e + 1) (c2 e) in
       if has bottomEdge st && has leftEdge st && has rightEdge st
       then [ {| box_r := r1 e; box_c := c1 e |} ] else []
     else [])
  else
    (if 0 <? c1 e then
       let leftEdge := key4 (r1 e) (c1 e - 1) (r2 e) (c1 e - 1) in
       let topEdge := key4 (r1 e) (c1 e - 1) (r1 e) (c1 e) in
       let bottomEdge := key4 (r2 e) (c1 e - 1) (r2 e) (c1 e) in
       if has leftEdge st && has topEdge st && has bottomEdge st
       then [ {| box_r := r1 e; box_c := c1 e - 1 |} ] else []
     else [])
    ++
    (if c1 e <? cols cfg - 1 then
       let rightEdge := key4 (r1 e) (c1 e + 1) (r2 e) (c1 e + 1) in
       let topEdge := key4 (r1 e) (c1 e) (r1 e) (c1 e + 1) in
       let bottomEdge := key4 (r2 e) (c1 e) (r2 e) (c1 e + 1) in
       if has rightEdge st && has topEdge st && has bottomEdge st
       then [ {| box_r := r1 e; box_c := c1 e |} ] else []
     else []).

(** ** End of the game *)

Definition totalPossibleEdges (cfg : config) : Z :=
  (rows cfg - 1) * cols cfg + rows cfg * (cols cfg - 1).

Definition isGameOver (cfg : config) (st : state) : bool :=
  totalPossibleEdges cfg <=? Z.of_nat (size (edges st)).

(** One iteration of the loop of [endGame] over the triple
    [(maxScore, winner, isTie)].  A missing score is [undefined], for which
    both comparisons are false. *)
Definition winnerStep (sc : gmap Z Z) (acc : Z * Z * bool) (i : Z) : Z * Z * bool :=
  let '(maxScore, winner, isTie) := acc in
  match sc !! i with
  | Some s =>
      if maxScore <? s then (s, i, false)
      else if s =? maxScore then (maxScore, winner, true)
      else (maxScore, winner, isTie)
  | None => (maxScore, winner, isTie)
  end.

Definition findWinner (st : state) : Z * Z * bool :=
  foldl (winnerStep (scores st)) (-1, -1, false) (indices (players st)).

(** [state.players[winner]] inside a template literal. *)
Definition playerName (st : state) (winner : Z) : string :=
  if winner <? 0 then "undefined"
  else default "undefined" (players st !! Z.to_nat winner).

Definition winnerMessage (st : state) : string :=
  let '(maxScore, winner, isTie) := findWinner st in
  if isTie then "It's a tie!"
  else "Player " +:+ playerName st winner +:+ " wins with "
       +:+ pretty maxScore +:+ " points!".

Definition endGame (st : state) : state * list effect :=
  let st := set_gameOver true st in
  (st, [SetWinnerText (winnerMessage st); SetGameOverDisplay "flex"]).

(** ** The handlers *)

(** The score read for player [i]. *)
Definition scoreOf (st : state) (i : Z) : Z := default 0 (scores st !! i).

Definition boxKeyOf (b : box) : string := boxKey (box_r b) (box_c b).

(** The body of [completedBoxes.forEach(box => ...)]:
    [state.boxes.set(key, state.currentPlayer); state.scores[state.currentPlayer]++].
    The score of the current player is always defined in a running game
    (see [scores_ok]), so the increment never meets [undefined]. *)
Definition award (st : state) (b : box) : state :=
  let st := set_boxes (<[boxKeyOf b := currentPlayer st]> (boxes st)) st in
  set_scores (<[currentPlayer st := scoreOf st (currentPlayer st) + 1]> (scores st)) st.

Definition handleCanvasClick (cfg : config) (x y : Q) (st : state)
  : state * list effect :=
  if gameOver st then (st, []) else
  match findNearestEdge cfg st x y with
  | Some e =>
      let k := edgeKey e in
      if has k st then (st, []) else
      let st := set_edges ({[k]} ∪ edges st) st in
      let completedBoxes := checkForCompletedBoxes cfg st e in
      if (Z.of_nat (length completedBoxes) =? 0) then
        let st := set_currentPlayer
                    (Z.rem (currentPlayer st + 1) (Z.of_nat (length (players st)))) st in
        (st, [DrawBoard; UpdateUI])
      else
        let st := foldl award st completedBoxes in
        if isGameOver cfg st then endGame st
        else (st, [DrawBoard; UpdateUI])
  | None => (st, [])
  end.

Definition handleMouseMove (cfg : config) (x y : Q) (st : state)
  : state * list effect :=
  if gameOver st then (st, []) else
  let st :=
    match findNearestEdge cfg st x y with
    | Some e =>
        if negb (has (edgeKey e) st) then set_highlightedEdge (Some e) st
        else set_highlightedEdge None st
    | None => set_highlightedEdge None st
    end in
  (st, [DrawBoard]).

Definition resetGame (st : state) : state * list effect :=
  let st := set_edges ∅ st in
  let st := set_boxes ∅ st in
  let st := set_currentPlayer 0 st in
  let st := set_gameOver false st in
  let st := set_highlightedEdge None st in
  let st := zeroScores st in
  (st, [SetGameOverDisplay "none"; DrawBoard; UpdateUI]).

(** ** Runs *)

(** The listeners installed by [setupEventListeners] and the key handler:
    a click and a mouse move on the canvas, the two restart buttons and the
    R key (all of which call [resetGame]), and a resize of the window. *)
Inductive event :=
  | Click (x y : Q)
  | MouseMove (x y : Q)
  | Restart
  | Resize.

Definition step (cfg : config) (st : state) (ev : event) : state * list effect :=
  match ev with
  | Click x y => handleCanvasClick cfg x y st
  | MouseMove x y => handleMouseMove cfg x y st
  | Restart => resetGame st
  | Resize => (setupCanvas cfg st, [DrawBoard])
  end.

(** The state after the page has loaded ([initGame]) and the events [evs]
    have been handled, one after the other. *)
Definition run (cfg : config) (ps : list string) (evs : list event) : state :=
  foldl (λ st ev, fst (step cfg st ev)) (fst (initGame cfg (state0 ps))) evs.

(** ** The grid *)

Definition hEdge (r c : Z) : edge :=
  {| r1 := r; c1 := c; r2 := r; c2 := c + 1; isHorizontal := true |}.

Definition vEdge (r c : Z) : edge :=
  {| r1 := r; c1 := c; r2 := r + 1; c2 := c; isHorizontal := false |}.

(** [grid n m f]: [for r in 0 .. n-1, for c in 0 .. m-1], collect [f r c].
    The edges of the grid, in the order of the two pairs of nested loops of
    [drawBoard]: the horizontal ones for [0 <= r < rows], [0 <= c < cols - 1],
    then the vertical ones for [0 <= r < rows - 1], [0 <= c < cols]. *)
Definition grid {A} (n m : Z) (f : Z → Z → A) : list A :=
  r ← seqZ 0 n; c ← seqZ 0 m; [f r c].

Definition legalEdges (cfg : config) : list edge :=
  grid (rows cfg) (cols cfg - 1) hEdge ++ grid (rows cfg - 1) (cols cfg) vEdge.

Definition legalKeys (cfg : config) : gset string :=
  list_to_set (edgeKey <$> legalEdges cfg).

(** A box is named by its top-left dot. *)
Definition inGrid (cfg : config) (b : box) : Prop :=
  0 ≤ box_r b < rows cfg - 1 ∧ 0 ≤ box_c b < cols cfg - 1.

(** Top, bottom, left and right side of a box. *)
Definition cellBounds (b : box) : list edge :=
  [ hEdge (box_r b) (box_c b); hEdge (box_r b + 1) (box_c b);
    vEdge (box_r b) (box_c b); vEdge (box_r b) (box_c b + 1) ].

Definition complete (E : gset string) (b : box) : Prop :=
  Forall (λ e, edgeKey e ∈ E) (cellBounds b).

Global Instance complete_dec E b : Decision (complete E b).
Proof. unfold complete. apply _. Defined.

(** The boxes that have [e] as a side, the one above (or to the left) first. *)
Definition adjacentCells (cfg : config) (e : edge) : list box :=
  if isHorizontal e then
    (if 0 <? r1 e then [ {| box_r := r1 e - 1; box_c := c1 e |} ] else [])
    ++ (if r1 e <? rows cfg - 1 then [ {| box_r := r1 e; box_c := c1 e |} ] else [])
  else
    (if 0 <? c1 e then [ {| box_r := r1 e; box_c := c1 e - 1 |} ] else [])
    ++ (if c1 e <? cols cfg - 1 then [ {| box_r := r1 e; box_c := c1 e |} ] else []).

(** ** Scores *)

(** The sum of the scores of all players. *)
Definition totalScore (st : state) : Z :=
  foldr Z.add 0 (scoreOf st <$> indices (players st)).

(** The largest score of a player (0 when there is no player). *)
Definition maxScoreOf (st : state) : Z :=
  foldr Z.max 0 (scoreOf st <$> indices (players st)).

(** The players whose score is the largest one. *)
Definition winners (st : state) : list Z :=
  filter (λ i, scoreOf st i = maxScoreOf st) (indices (players st)).

(** ** How a call ends *)

(** A call of a function of the script returns or throws.  The body of
    [initGame] has no [throw] and no test of [config] or of the number of
    players, so it always returns. *)
Inductive completion (A : Type) :=
  | Returns (a : A)
  | Throws (err : string).
Arguments Returns {A} a.
Arguments Throws {A} err.

Definition initGame_completion (cfg : config) (ps : list string)
  : completion (state * list effect) :=
  Returns (initGame cfg (state0 ps)).

(** ** Vocabulary of the proofs *)

(** *** Keys *)

(** A string without the two separators of the keys. *)
Fixpoint no_sep (s : string) : Prop :=
  match s with
  | EmptyString => True
  | String a s' => a ≠ ","%char ∧ a ≠ ":"%char ∧ no_sep s'
  end.

(** An edge of the grid, by its coordinates. *)
Definition legal (cfg : config) (e : edge) : Prop :=
  (isHorizontal e = true ∧ 0 ≤ r1 e < rows cfg ∧ 0 ≤ c1 e < cols cfg - 1
   ∧ r2 e = r1 e ∧ c2 e = c1 e + 1)
  ∨ (isHorizontal e = false ∧ 0 ≤ r1 e < rows cfg - 1 ∧ 0 ≤ c1 e < cols cfg
     ∧ r2 e = r1 e + 1 ∧ c2 e = c1 e).

(** *** Clicks *)

(** The state and the effects of an accepted click on the edge [e]: the
    branch of [handleCanvasClick] that draws an edge, with the result of
    [checkForCompletedBoxes] written as a filter (see
    [handleCanvasClick_accepted]). *)
Definition accepted (cfg : config) (e : edge) (st : state) : state * list effect :=
  let st1 := set_edges ({[edgeKey e]} ∪ edges st) st in
  let cb := filter (complete (edges st1)) (adjacentCells cfg e) in
  if decide (cb = []) then
    (set_currentPlayer
       (Z.rem (currentPlayer st + 1) (Z.of_nat (length (players st)))) st1,
     [DrawBoard; UpdateUI])
  else
    let st2 := foldl award st1 cb in
    if isGameOver cfg st2 then endGame st2 else (st2, [DrawBoard; UpdateUI]).

(** The clicks that [handleCanvasClick] ignores. *)
Definition rejected (cfg : config) (x y : Q) (st : state) : Prop :=
  gameOver st = true
  ∨ findNearestEdge cfg st x y = None
  ∨ ∃ e, findNearestEdge cfg st x y = Some e ∧ edgeKey e ∈ edges st.

(** The boxes completed by drawing [e] in [st]. *)
Definition completedBy (cfg : config) (e : edge) (st : state) : list box :=
  filter (complete ({[edgeKey e]} ∪ edges st)) (adjacentCells cfg e).

(** *** Invariants *)

(** Only edges of the grid are drawn, and the owned boxes are the complete
    boxes of the grid. *)
Definition board_ok (cfg : config) (st : state) : Prop :=
  edges st ⊆ legalKeys cfg
  ∧ ∀ k, k ∈ dom (boxes st) ↔
         ∃ b, inGrid cfg b ∧ complete (edges st) b ∧ k = boxKeyOf b.

(** The game is over exactly when every edge is drawn. *)
Definition over_ok (cfg : config) (st : state) : Prop :=
  gameOver st = true ↔ Z.of_nat (size (edges st)) = totalPossibleEdges cfg.

(** The part of the score invariant that [award] keeps as it is. *)
Definition scores_base (ps : list string) (st : state) : Prop :=
  players st = ps
  ∧ 0 ≤ currentPlayer st < Z.of_nat (length ps)
  ∧ (∀ i, is_Some (scores st !! i) ↔ i ∈ indices ps)
  ∧ (∀ i, 0 ≤ scoreOf st i).

(** The scores add up to the number of owned boxes. *)
Definition scores_ok (ps : list string) (st : state) : Prop :=
  scores_base ps st ∧ totalScore st = Z.of_nat (size (boxes st)).

(** The players and the layout computed by [setupCanvas] stay as they are. *)
Definition layout_ok (cfg : config) (ps : list string) (st : state) : Prop :=
  players st = ps
  ∧ canvasSize st = canvasSize (setupCanvas cfg st)
  ∧ boardOffset st = boardOffset (setupCanvas cfg st).

(** The number of entries of [boxes] with owner [i]. *)
Definition ownedBy (st : state) (i : Z) : nat :=
  size (filter (λ kv : string * Z, kv.2 = i) (boxes st)).

(** Every score is the number of boxes of the player. *)
Definition owned_ok (st : state) : Prop :=
  ∀ i, scoreOf st i = Z.of_nat (ownedBy st i).

(** *** Example games *)

(** A point of the canvas next to the edge: ten pixels to the right of the
    left dot of a horizontal edge, fifteen pixels below the upper dot of a
    vertical one. *)
Definition pointOn (cfg : config) (e : edge) : Q * Q :=
  if isHorizontal e then
    (inject_Z (margin cfg + c1 e * cellSize cfg + 10),
     inject_Z (margin cfg + gridPaddingTop cfg + r1 e * cellSize cfg))
  else
    (inject_Z (margin cfg + c1 e * cellSize cfg),
     inject_Z (margin cfg + gridPaddingTop cfg + r1 e * cellSize cfg + 15)).

(** A click at that point. *)
Definition clickOn (cfg : config) (e : edge) : event :=
  Click (fst (pointOn cfg e)) (snd (pointOn cfg e)).

(** The configuration of the repository with another number of dots. *)
Definition gridConfig (m n : Z) : config :=
  {| rows := m; cols := n; cellSize := 90; gridPaddingTop := 30; margin := 20 |}.

(** A whole game on the grid of two by two dots: A draws the top and the
    left side, B the bottom and the right side, which closes the only box. *)
Definition game2x2 : list event :=
  clickOn (gridConfig 2 2) <$> [hEdge 0 0; hEdge 1 0; vEdge 0 0; vEdge 0 1].

(** Two games of three players on the grid of two by three dots.  In the
    first A and C close one box each, in the second B and C do. *)
Definition tieAC : list event :=
  clickOn (gridConfig 2 3) <$>
    [hEdge 0 0; hEdge 1 0; vEdge 0 0; vEdge 0 1; hEdge 0 1; hEdge 1 1].

Definition tieBC : list event :=
  clickOn (gridConfig 2 3) <$>
    [hEdge 0 0; hEdge 1 0; vEdge 0 0; hEdge 0 1; vEdge 0 1; hEdge 1 1].

(** The click on the last edge of both games. *)
Definition lastClick : event := clickOn (gridConfig 2 3) (vEdge 0 2).

(** *** Drawing *)

(** The entries [lineWidth], [colors.line] and [colors.players] of the
    literal bound to [config]. *)
Definition config_lineWidth : Z := 8.

Definition colors_line : string := "#7f8c8d".

Definition colors_players : list string :=
  ["#e74c3c"; "#3498db"; "#2ecc71"; "#f1c40f"; "#9b59b6"].

(** [config.colors.players[idx % config.colors.players.length]]; [None] is
    [undefined], the value of an index that is not in the array. *)
Definition playerColor (idx : Z) : option string :=
  let i := Z.rem idx (Z.of_nat (length colors_players)) in
  if i <? 0 then None else colors_players !! Z.to_nat i.

(** [if (state.boxes.has(boxKey)) playerColor = ...] in [drawBoard]. *)
Definition ownerColor (st : state) (boxKey : string) (color : option string)
  : option string :=
  match boxes st !! boxKey with
  | Some owner => playerColor owner
  | None => color
  end.

(** [state.highlightedEdge && state.highlightedEdge.r1 === a && ...] *)
Definition isHighlighted (st : state) (a b c d : Z) : bool :=
  match highlightedEdge st with
  | Some h => (r1 h =? a) && (c1 h =? b) && (r2 h =? c) && (c2 h =? d)
  | None => false
  end.

(** The stroke of the faint and of the highlighted line.  An [undefined]
    colour prints as that word in front of the opacity suffix. *)
Definition otherStroke (st : state) (highlighted : bool) : option string * Q :=
  if highlighted then
    (Some (default "undefined" (playerColor (currentPlayer st)) +:+ "80"),
     (inject_Z config_lineWidth * (3 # 2))%Q)
  else
    (Some (colors_line +:+ "40"), (inject_Z config_lineWidth * (7 # 10))%Q).

(** The body of the loop of [drawBoard] over the horizontal lines, up to the
    path: the values given to [ctx.strokeStyle] and [ctx.lineWidth] for the
    line from dot [(r, c)] to dot [(r, c + 1)]. *)
Definition hEdgeStroke (cfg : config) (st : state) (r c : Z) : option string * Q :=
  let isDrawn := has (key4 r c r (c + 1)) st in
  if isDrawn then
    let color := Some colors_line in
    let color :=
      if 0 <? r then ownerColor st (boxKey (r - 1) c) color
      else color in
    let color :=
      if r <? rows cfg - 1 then ownerColor st (boxKey r c) color
      else color in
    (color, inject_Z config_lineWidth)
  else otherStroke st (isHighlighted st r c r (c + 1)).

(** The same for the vertical line from dot [(r, c)] to dot [(r + 1, c)]. *)
Definition vEdgeStroke (cfg : config) (st : state) (r c : Z) : option string * Q :=
  let isDrawn := has (key4 r c (r + 1) c) st in
  if isDrawn then
    let color := Some colors_line in
    let color :=
      if 0 <? c then ownerColor st (boxKey r (c - 1)) color
      else color in
    let color :=
      if c <? cols cfg - 1 then ownerColor st (boxKey r c) color
      else color in
    (color, inject_Z config_lineWidth)
  else otherStroke st (isHighlighted st r c (r + 1) c).

(** The stroke of an edge of the grid, by the loop that draws it. *)
Definition edgeStroke (cfg : config) (st : state) (e : edge) : option string * Q :=
  if isHorizontal e then hEdgeStroke cfg st (r1 e) (c1 e)
  else vEdgeStroke cfg st (r1 e) (c1 e).

(** *** The canvas and the log of page writes *)

(** The boxes of the grid. *)
Definition cells (cfg : config) : list box :=
  grid (rows cfg - 1) (cols cfg - 1) (λ r c, {| box_r := r; box_c := c |}).

(** The centre of the dot in row [r] and column [c], as [drawBoard] places it. *)
Definition dotAt (cfg : config) (st : state) (r c : Z) : Z * Z :=
  (fst (boardOffset st) + c * cellSize cfg, snd (boardOffset st) + r * cellSize cfg).

(** A point on the canvas sized by [setupCanvas]. *)
Definition inCanvas (st : state) (p : Q * Q) : Prop :=
  (0 <= fst p)%Q ∧ (fst p < inject_Z (fst (canvasSize st)))%Q
  ∧ (0 <= snd p)%Q ∧ (snd p < inject_Z (snd (canvasSize st)))%Q.

(** The state and all page writes after the page has loaded and the events
    have been handled. *)
Definition runLog (cfg : config) (ps : list string) (evs : list event)
  : state * list effect :=
  foldl (λ acc ev, (fst (step cfg (fst acc) ev), snd acc ++ snd (step cfg (fst acc) ev)))
        (initGame cfg (state0 ps)) evs.

(** The last value written to the [display] of the game-over dialog. *)
Definition lastDisplay (log : list effect) : option string :=
  foldl (λ d fx, match fx with SetGameOverDisplay v => Some v | _ => d end)
        None log.

(** * Lemmas *)

(** ** Keys are injective *)

Lemma pretty_N_char_no_sep x :
  pretty_N_char x ≠ ","%char ∧ pretty_N_char x ≠ ":"%char.
Proof. unfold pretty_N_char. repeat case_match; split; discriminate. Qed.

Lemma pretty_N_go_no_sep x s : no_sep s → no_sep (pretty_N_go x s).
Proof.
  revert s. induction (N.lt_wf_0 x) as [x _ IH]; intros s Hs.
  destruct (decide (x = 0%N)) as [->|Hx].
  - by rewrite pretty_N_go_0.
  - rewrite pretty_N_go_step by lia. apply IH.
    + apply N.div_lt; lia.
    + simpl. destruct (pretty_N_char_no_sep (x `mod` 10)%N). done.
Qed.

Lemma pretty_N_no_sep (x : N) : no_sep (pretty x).
Proof.
  unfold pretty, pretty_N. case_decide.
  - simpl. repeat split; discriminate.
  - by apply pretty_N_go_no_sep.
Qed.

Lemma pretty_Z_no_sep (z : Z) : no_sep (pretty z).
Proof.
  destruct z as [|p|p]; unfold pretty, pretty_Z.
  - simpl. repeat split; discriminate.
  - apply (pretty_N_no_sep (Npos p)).
  - simpl. repeat split; try discriminate. apply (pretty_N_no_sep (Npos p)).
Qed.

(** Two strings that agree up to and including the first separator. *)
Lemma split_at_sep (a : ascii) (s s' t t' : string) :
  a = ","%char ∨ a = ":"%char →
  no_sep s → no_sep s' →
  s +:+ String a t = s' +:+ String a t' → s = s' ∧ t = t'.
Proof.
  intros Ha. revert s'. induction s as [|x s IH]; intros [|x' s']; simpl.
  - intros _ _ [= ->]. done.
  - intros _ (? & ? & _) [= <- _]. destruct Ha; done.
  - intros (? & ? & _) _ [= -> _]. destruct Ha; done.
  - intros (_ & _ & Hs) (_ & _ & Hs') [= -> Heq].
    destruct (IH _ Hs Hs' Heq) as [-> ->]. done.
Qed.

Lemma boxKey_inj r c r' c' : boxKey r c = boxKey r' c' → r = r' ∧ c = c'.
Proof.
  unfold boxKey. intros H.
  apply split_at_sep in H as [Hr Hc]; auto using pretty_Z_no_sep.
  split; by apply (inj pretty).
Qed.

Lemma key4_inj a b c d a' b' c' d' :
  key4 a b c d = key4 a' b' c' d' → a = a' ∧ b = b' ∧ c = c' ∧ d = d'.
Proof.
  unfold key4. intros H.
  apply split_at_sep in H as [Ha H]; auto using pretty_Z_no_sep.
  apply split_at_sep in H as [Hb H]; auto using pretty_Z_no_sep.
  apply split_at_sep in H as [Hc Hd]; auto using pretty_Z_no_sep.
  repeat split; by apply (inj pretty).
Qed.

Lemma key4_eq_iff a b c d a' b' c' d' :
  key4 a b c d = key4 a' b' c' d' ↔ a = a' ∧ b = b' ∧ c = c' ∧ d = d'.
Proof.
  split; [apply key4_inj|]. by intros (-> & -> & -> & ->).
Qed.

(** ** The edges of the grid *)

Lemma elem_of_grid {A} n m (f : Z → Z → A) x :
  x ∈ grid n m f ↔ ∃ r c, 0 ≤ r < n ∧ 0 ≤ c < m ∧ x = f r c.
Proof.
  unfold grid. rewrite list_elem_of_bind. split.
  - intros (r & (c & ->%list_elem_of_singleton & Hc%elem_of_seqZ)%list_elem_of_bind
              & Hr%elem_of_seqZ).
    exists r, c. split_and!; lia || done.
  - intros (r & c & Hr & Hc & ->). exists r. split; [|apply elem_of_seqZ; lia].
    apply list_elem_of_bind. exists c. split; [by apply list_elem_of_singleton|].
    apply elem_of_seqZ; lia.
Qed.

Lemma length_bind_const {A B} (f : A → list B) (k : nat) (l : list A) :
  (∀ x, length (f x) = k) → length (l ≫= f) = (length l * k)%nat.
Proof.
  intros Hf. induction l as [|x l IH]; csimpl; [done|].
  rewrite length_app, Hf, IH. done.
Qed.

Lemma length_grid {A} n m (f : Z → Z → A) :
  length (grid n m f) = (Z.to_nat n * Z.to_nat m)%nat.
Proof.
  unfold grid. rewrite (length_bind_const _ (Z.to_nat m)).
  - by rewrite length_seqZ.
  - intros r. rewrite (length_bind_const _ 1%nat); [|done].
    rewrite length_seqZ. lia.
Qed.

Lemma NoDup_grid {A} n m (f : Z → Z → A) :
  (∀ r c r' c', f r c = f r' c' → r = r' ∧ c = c') → NoDup (grid n m f).
Proof.
  intros Hf. unfold grid. apply NoDup_bind; [| |apply NoDup_seqZ].
  - intros r r' x _ _.
    intros (c & ->%list_elem_of_singleton & _)%list_elem_of_bind.
    intros (c' & Heq%list_elem_of_singleton & _)%list_elem_of_bind.
    by apply Hf in Heq as [? _].
  - intros r _. apply NoDup_bind; [| |apply NoDup_seqZ].
    + intros c c' x _ _ ->%list_elem_of_singleton Heq%list_elem_of_singleton.
      by apply Hf in Heq as [_ ?].
    + intros c _. apply NoDup_singleton.
Qed.

Lemma elem_of_legalEdges cfg e : e ∈ legalEdges cfg ↔ legal cfg e.
Proof.
  unfold legalEdges, legal. rewrite elem_of_app, !elem_of_grid. split.
  - intros [(r & c & ? & ? & ->)|(r & c & ? & ? & ->)]; simpl; [left|right]; lia.
  - destruct e as [a b a' b' h]; simpl.
    intros [(-> & ? & ? & -> & ->)|(-> & ? & ? & -> & ->)]; [left|right];
      exists a, b; done.
Qed.

Lemma edgeKey_inj_legal cfg e e' :
  legal cfg e → legal cfg e' → edgeKey e = edgeKey e' → e = e'.
Proof.
  destruct e as [a b c d h], e' as [a' b' c' d' h']. unfold legal, edgeKey; simpl.
  intros He He' (-> & -> & -> & ->)%key4_inj. f_equal.
  destruct He as [(-> & ?)|(-> & ?)], He' as [(-> & ?)|(-> & ?)]; try done; lia.
Qed.

Lemma NoDup_legalEdges cfg : NoDup (legalEdges cfg).
Proof.
  unfold legalEdges. apply NoDup_app. split_and!.
  - apply NoDup_grid. intros r c r' c' Heq. injection Heq; intros; lia.
  - intros e (r & c & _ & _ & ->)%elem_of_grid (r' & c' & _ & _ & [=])%elem_of_grid.
  - apply NoDup_grid. intros r c r' c' Heq. injection Heq; intros; lia.
Qed.

Lemma NoDup_legalKeys cfg : NoDup (edgeKey <$> legalEdges cfg).
Proof.
  apply NoDup_fmap_2_strong; [|apply NoDup_legalEdges].
  intros e e' He%elem_of_legalEdges He'%elem_of_legalEdges.
  by apply edgeKey_inj_legal with cfg.
Qed.

Lemma elem_of_legalKeys cfg k :
  k ∈ legalKeys cfg ↔ ∃ e, legal cfg e ∧ k = edgeKey e.
Proof.
  unfold legalKeys. rewrite elem_of_list_to_set, list_elem_of_fmap.
  setoid_rewrite elem_of_legalEdges.
  split; intros (e & ? & ?); exists e; done.
Qed.

Lemma size_legalKeys cfg :
  1 ≤ rows cfg → 1 ≤ cols cfg →
  Z.of_nat (size (legalKeys cfg)) = totalPossibleEdges cfg.
Proof.
  intros Hr Hc. unfold legalKeys, totalPossibleEdges.
  rewrite size_list_to_set by apply NoDup_legalKeys.
  rewrite length_fmap. unfold legalEdges. rewrite length_app, !length_grid.
  rewrite Nat2Z.inj_add, !Nat2Z.inj_mul, !Z2Nat.id by lia. ring.
Qed.

(** ** The hit test only yields edges of the grid *)

(** Splits the hypotheses that a conjunction of tests succeeded. *)
Ltac unpack_andb :=
  repeat match goal with
         | H : _ && _ = true |- _ => apply andb_prop in H as [? ?]
         end.

Lemma findNearestEdge_legal cfg st x y e :
  findNearestEdge cfg st x y = Some e → legal cfg e.
Proof.
  unfold findNearestEdge, legal. intros H.
  repeat case_match; simplify_eq; simpl; unpack_andb;
    [left|right]; split_and!; lia || done.
Qed.

(** ** Completion detection, box by box *)

Lemma complete_iff E r c :
  complete E {| box_r := r; box_c := c |} ↔
  key4 r c r (c + 1) ∈ E ∧ key4 (r + 1) c (r + 1) (c + 1) ∈ E
  ∧ key4 r c (r + 1) c ∈ E ∧ key4 r (c + 1) (r + 1) (c + 1) ∈ E.
Proof.
  unfold complete, cellBounds, edgeKey; simpl.
  rewrite !Forall_cons, Forall_nil; simpl. tauto.
Qed.

Lemma complete_mono E E' b : E ⊆ E' → complete E b → complete E' b.
Proof.
  unfold complete. intros HE Hb. eapply Forall_impl; [exact Hb|].
  intros e He. by apply HE.
Qed.

Lemma has_true k st : has k st = true ↔ k ∈ edges st.
Proof. unfold has. apply bool_decide_eq_true. Qed.

Lemma has3 st k1 k2 k3 :
  has k1 st && has k2 st && has k3 st = true ↔
  k1 ∈ edges st ∧ k2 ∈ edges st ∧ k3 ∈ edges st.
Proof. rewrite !andb_true_iff, !has_true. tauto. Qed.

(** One block of [checkForCompletedBoxes]: the three other sides of [b]. *)
Lemma block_filter st (P : Prop) k1 k2 k3 b :
  (complete (edges st) b ↔ k1 ∈ edges st ∧ k2 ∈ edges st ∧ k3 ∈ edges st) →
  (if has k1 st && has k2 st && has k3 st then [b] else [])
  = filter (complete (edges st)) [b].
Proof.
  intros Hb. rewrite filter_cons, filter_nil.
  destruct (has k1 st && has k2 st && has k3 st) eqn:Hh.
  - apply has3 in Hh. rewrite decide_True; [done|]. by apply Hb.
  - rewrite decide_False; [done|]. intros Hc%Hb%has3. congruence.
Qed.

(** With the new edge in the set, [checkForCompletedBoxes] returns the
    complete boxes among those next to the edge. *)
Lemma checkForCompletedBoxes_filter cfg st e :
  legal cfg e → edgeKey e ∈ edges st →
  checkForCompletedBoxes cfg st e
  = filter (complete (edges st)) (adjacentCells cfg e).
Proof.
  destruct e as [r c r' c' h]. unfold legal, edgeKey; simpl.
  intros [(-> & _ & _ & -> & ->)|(-> & _ & _ & -> & ->)] Hk;
    unfold checkForCompletedBoxes, adjacentCells; simpl;
    rewrite filter_app; f_equal;
    case_match; try done;
    apply (block_filter st True); rewrite complete_iff.
  - replace (r - 1 + 1) with r by lia. tauto.
  - tauto.
  - replace (c - 1 + 1) with c by lia. tauto.
  - tauto.
Qed.

Lemma adjacentCells_inGrid cfg e b :
  legal cfg e → b ∈ adjacentCells cfg e → inGrid cfg b.
Proof.
  destruct e as [r c r' c' h]. unfold legal, adjacentCells, inGrid; simpl.
  intros [(-> & ? & ? & -> & ->)|(-> & ? & ? & -> & ->)];
    rewrite elem_of_app; intros [Hb|Hb];
    case_match; try (by apply elem_of_nil in Hb);
    apply list_elem_of_singleton in Hb as ->; simpl; lia.
Qed.

(** The boxes next to an edge are the boxes that have it as a side. *)
Lemma adjacentCells_bounds cfg e b :
  legal cfg e → inGrid cfg b →
  edgeKey e ∈ edgeKey <$> cellBounds b ↔ b ∈ adjacentCells cfg e.
Proof.
  destruct e as [r c r' c' h], b as [br bc].
  unfold legal, adjacentCells, inGrid, cellBounds, edgeKey; simpl.
  intros He Hb.
  rewrite !elem_of_cons, elem_of_nil, !key4_eq_iff.
  destruct He as [(-> & ? & ? & -> & ->)|(-> & ? & ? & -> & ->)];
    rewrite elem_of_app;
    repeat case_match;
    rewrite ?list_elem_of_singleton, ?elem_of_nil;
    split; intros Hx;
    repeat match goal with
           | H : _ ∨ _ |- _ => destruct H
           | H : _ ∧ _ |- _ => destruct H
           | H : {| box_r := _ |} = _ |- _ => injection H as ? ?
           | H : False |- _ => destruct H
           end;
    try lia;
    first [ left; f_equal; lia | right; f_equal; lia
          | left; lia | right; left; lia
          | right; right; left; lia | right; right; right; left; lia ].
Qed.

Lemma NoDup_adjacentCells cfg e : NoDup (adjacentCells cfg e).
Proof.
  unfold adjacentCells.
  repeat case_match; simpl;
    repeat (apply NoDup_cons; split; [rewrite ?elem_of_cons, ?elem_of_nil|]);
    try apply NoDup_nil_2;
    try (intros [[=]|[]]); try (intros []); try lia.
Qed.

(** ** Runs, event by event *)

Lemma run_snoc cfg ps evs ev :
  run cfg ps (evs ++ [ev]) = fst (step cfg (run cfg ps evs) ev).
Proof. unfold run. by rewrite foldl_snoc. Qed.

Lemma run_ind cfg ps (P : state → Prop) :
  P (run cfg ps []) →
  (∀ st ev, P st → P (fst (step cfg st ev))) →
  ∀ evs, P (run cfg ps evs).
Proof.
  intros H0 Hstep evs. induction evs as [|ev evs IH] using rev_ind; [done|].
  rewrite run_snoc. by apply Hstep.
Qed.

Lemma handleCanvasClick_rejected cfg x y st :
  rejected cfg x y st → handleCanvasClick cfg x y st = (st, []).
Proof.
  unfold rejected, handleCanvasClick.
  intros [->|[->|(e & -> & He)]]; [done|by destruct (gameOver st)|].
  destruct (gameOver st); [done|].
  apply has_true in He. by rewrite He.
Qed.

Lemma handleCanvasClick_accepted cfg x y st e :
  gameOver st = false → findNearestEdge cfg st x y = Some e →
  edgeKey e ∉ edges st →
  handleCanvasClick cfg x y st = accepted cfg e st.
Proof.
  intros Hg He Hk. unfold handleCanvasClick, accepted. rewrite Hg, He.
  assert (has (edgeKey e) st = false) as ->.
  { apply not_true_is_false. by rewrite has_true. }
  rewrite checkForCompletedBoxes_filter
    by (eauto using findNearestEdge_legal; simpl; set_solver).
  simpl. destruct (filter _ _) as [|b cb]; done.
Qed.

Lemma handleCanvasClick_cases cfg x y st :
  (rejected cfg x y st ∧ handleCanvasClick cfg x y st = (st, []))
  ∨ (∃ e, gameOver st = false ∧ findNearestEdge cfg st x y = Some e
          ∧ legal cfg e ∧ (edgeKey e ∉ edges st)
          ∧ handleCanvasClick cfg x y st = accepted cfg e st).
Proof.
  destruct (gameOver st) eqn:Hg.
  { left. split; [by left|]. apply handleCanvasClick_rejected. by left. }
  destruct (findNearestEdge cfg st x y) as [e|] eqn:He.
  2: { left. split; [right; by left|].
       apply handleCanvasClick_rejected. right; by left. }
  destruct (decide (edgeKey e ∈ edges st)) as [Hk|Hk].
  - left. split; [right; right; eauto|].
    apply handleCanvasClick_rejected. right; right; eauto.
  - right. exists e. split_and!; eauto using findNearestEdge_legal.
    all: try done. by apply handleCanvasClick_accepted.
Qed.

(** ** What [award] changes *)

Lemma foldl_award_frame st cb :
  players (foldl award st cb) = players st
  ∧ currentPlayer (foldl award st cb) = currentPlayer st
  ∧ edges (foldl award st cb) = edges st
  ∧ highlightedEdge (foldl award st cb) = highlightedEdge st
  ∧ gameOver (foldl award st cb) = gameOver st
  ∧ canvasSize (foldl award st cb) = canvasSize st
  ∧ boardOffset (foldl award st cb) = boardOffset st.
Proof.
  revert st. induction cb as [|b cb IH]; intros st; simpl; [done|].
  destruct (IH (award st b)) as (-> & -> & -> & -> & -> & -> & ->). done.
Qed.

Lemma foldl_award_boxes st cb k :
  boxes (foldl award st cb) !! k =
  if decide (k ∈ boxKeyOf <$> cb) then Some (currentPlayer st) else boxes st !! k.
Proof.
  revert st. induction cb as [|b cb IH]; intros st.
  - case_decide as Hin; [by apply elem_of_nil in Hin|done].
  - change (foldl award st (b :: cb)) with (foldl award (award st b) cb).
    rewrite IH, fmap_cons. simpl.
    destruct (decide (k ∈ boxKeyOf <$> cb)) as [Hin|Hin].
    + rewrite decide_True; [done|]. by right.
    + destruct (decide (k = boxKeyOf b)) as [->|Hne].
      * rewrite decide_True by left. by rewrite lookup_insert_eq.
      * rewrite decide_False by (by intros [?|?]%elem_of_cons).
        by rewrite lookup_insert_ne.
Qed.

Lemma foldl_award_dom st cb :
  dom (boxes (foldl award st cb))
  = dom (boxes st) ∪ list_to_set (boxKeyOf <$> cb).
Proof.
  apply set_eq. intros k.
  rewrite elem_of_union, elem_of_list_to_set, !elem_of_dom, foldl_award_boxes.
  case_decide; [|tauto]. split; [tauto|eauto].
Qed.

Global Instance boxKeyOf_inj : Inj (=) (=) boxKeyOf.
Proof.
  intros [r c] [r' c']. unfold boxKeyOf; simpl.
  by intros [-> ->]%boxKey_inj.
Qed.

(** ** Accepted clicks *)

Lemma accepted_frame cfg e st :
  players (fst (accepted cfg e st)) = players st
  ∧ edges (fst (accepted cfg e st)) = {[edgeKey e]} ∪ edges st
  ∧ highlightedEdge (fst (accepted cfg e st)) = highlightedEdge st
  ∧ canvasSize (fst (accepted cfg e st)) = canvasSize st
  ∧ boardOffset (fst (accepted cfg e st)) = boardOffset st.
Proof.
  unfold accepted. simpl. case_decide; simpl; [done|].
  set (st1 := set_edges _ st).
  destruct (foldl_award_frame st1 (filter (complete ({[edgeKey e]} ∪ edges st))
                                    (adjacentCells cfg e)))
    as (Hp & _ & He & Hh & _ & Hc & Hb).
  case_match; simpl; rewrite ?Hp, ?He, ?Hh, ?Hc, ?Hb; done.
Qed.

Lemma accepted_boxes cfg e st :
  boxes (fst (accepted cfg e st))
  = boxes (foldl award (set_edges ({[edgeKey e]} ∪ edges st) st)
             (completedBy cfg e st)).
Proof.
  unfold accepted, completedBy. simpl. case_decide as Hcb; simpl.
  - by rewrite Hcb.
  - by case_match.
Qed.

Lemma accepted_scores cfg e st :
  scores (fst (accepted cfg e st))
  = scores (foldl award (set_edges ({[edgeKey e]} ∪ edges st) st)
              (completedBy cfg e st)).
Proof.
  unfold accepted, completedBy. simpl. case_decide as Hcb; simpl.
  - by rewrite Hcb.
  - by case_match.
Qed.

Lemma accepted_currentPlayer cfg e st :
  currentPlayer (fst (accepted cfg e st))
  = if decide (completedBy cfg e st = [])
    then Z.rem (currentPlayer st + 1) (Z.of_nat (length (players st)))
    else currentPlayer st.
Proof.
  unfold accepted, completedBy. simpl. case_decide as Hcb; simpl; [done|].
  set (st1 := set_edges _ st).
  destruct (foldl_award_frame st1 (filter (complete ({[edgeKey e]} ∪ edges st))
                                    (adjacentCells cfg e)))
    as (_ & Hc & _).
  case_match; simpl; by rewrite Hc.
Qed.

Lemma accepted_gameOver cfg e st :
  gameOver (fst (accepted cfg e st))
  = if decide (completedBy cfg e st = []) then gameOver st
    else if totalPossibleEdges cfg <=? Z.of_nat (size ({[edgeKey e]} ∪ edges st))
         then true else gameOver st.
Proof.
  unfold accepted, completedBy, isGameOver. simpl. case_decide as Hcb; simpl; [done|].
  set (st1 := set_edges _ st).
  destruct (foldl_award_frame st1 (filter (complete ({[edgeKey e]} ∪ edges st))
                                    (adjacentCells cfg e)))
    as (_ & _ & He & _ & Hg & _).
  rewrite He. simpl. case_match; simpl; [done|]. by rewrite Hg.
Qed.

(** ** Which boxes a new edge completes *)

Lemma cellBounds_legal cfg b e : inGrid cfg b → e ∈ cellBounds b → legal cfg e.
Proof.
  destruct b as [r c]. unfold inGrid, cellBounds, legal; simpl. intros Hb.
  rewrite !elem_of_cons, elem_of_nil.
  intros [->|[->|[->|[->|[]]]]]; simpl; [left|left|right|right];
    split_and!; lia || done.
Qed.

Lemma complete_without E k b :
  k ∉ edgeKey <$> cellBounds b → complete ({[k]} ∪ E) b → complete E b.
Proof.
  unfold complete. intros Hk Hb. apply Forall_forall. intros e He.
  rewrite Forall_forall in Hb. specialize (Hb e He).
  apply elem_of_union in Hb as [Heq%elem_of_singleton|Hb]; [|done].
  destruct Hk. rewrite <- Heq. by apply list_elem_of_fmap_2.
Qed.

Lemma complete_has E b e : complete E b → e ∈ cellBounds b → edgeKey e ∈ E.
Proof. unfold complete. rewrite Forall_forall. auto. Qed.

Lemma completedBy_iff cfg e st b :
  legal cfg e → inGrid cfg b →
  complete ({[edgeKey e]} ∪ edges st) b ↔
  complete (edges st) b ∨ b ∈ completedBy cfg e st.
Proof.
  intros He Hb. unfold completedBy. rewrite list_elem_of_filter. split.
  - intros Hc. destruct (decide (b ∈ adjacentCells cfg e)) as [Hadj|Hadj].
    + by right.
    + left. apply complete_without with (edgeKey e); [|done].
      by rewrite adjacentCells_bounds.
  - intros [Hc|[Hc _]]; [|done]. eapply complete_mono; [|done]. set_solver.
Qed.

Lemma completedBy_fresh cfg e st b :
  legal cfg e → edgeKey e ∉ edges st → b ∈ completedBy cfg e st →
  inGrid cfg b ∧ ¬ complete (edges st) b.
Proof.
  intros He Hk [_ Hadj]%list_elem_of_filter.
  assert (inGrid cfg b) as Hb by eauto using adjacentCells_inGrid.
  split; [done|]. intros Hc. apply Hk.
  apply adjacentCells_bounds in Hadj; [|done..].
  apply list_elem_of_fmap in Hadj as (e' & -> & He').
  by apply complete_has with b.
Qed.

Lemma NoDup_completedBy_keys cfg e st : NoDup (boxKeyOf <$> completedBy cfg e st).
Proof.
  apply NoDup_fmap_2; [apply _|]. apply NoDup_filter, NoDup_adjacentCells.
Qed.

(** ** Invariant: the owners are the complete boxes *)

Lemma not_complete_empty b : ¬ complete ∅ b.
Proof.
  intros Hc. eapply (not_elem_of_empty (C:=gset string)).
  apply (complete_has _ _ (hEdge (box_r b) (box_c b)) Hc). by left.
Qed.

Lemma board_ok_cleared cfg st :
  edges st = ∅ → boxes st = ∅ → board_ok cfg st.
Proof.
  intros HE HB. split; rewrite HE; [set_solver|]. rewrite HB.
  intros k. rewrite dom_empty_L. split; [set_solver|].
  intros (b & _ & Hc & _). by apply not_complete_empty in Hc.
Qed.

Lemma board_ok_accepted cfg e st :
  legal cfg e → edgeKey e ∉ edges st →
  board_ok cfg st → board_ok cfg (fst (accepted cfg e st)).
Proof.
  intros He Hk [HE HB].
  destruct (accepted_frame cfg e st) as (_ & HE' & _).
  split.
  - rewrite HE'. apply union_least; [|done].
    apply singleton_subseteq_l, elem_of_legalKeys. eauto.
  - intros k. rewrite accepted_boxes, foldl_award_dom, HE'. simpl.
    rewrite elem_of_union, elem_of_list_to_set, HB, list_elem_of_fmap. split.
    + intros [(b & Hb & Hc & ->)|(b & -> & Hb)].
      * exists b. split; [done|]. split; [|done].
        apply (proj2 (completedBy_iff cfg e st b He Hb)). by left.
      * destruct (completedBy_fresh _ _ _ _ He Hk Hb) as [Hg _].
        exists b. split; [done|]. split; [|done].
        apply (proj2 (completedBy_iff cfg e st b He Hg)). by right.
    + intros (b & Hb & Hc & ->).
      apply (proj1 (completedBy_iff cfg e st b He Hb)) in Hc as [Hc|Hc]; eauto.
Qed.

Lemma board_ok_step cfg st ev :
  board_ok cfg st → board_ok cfg (fst (step cfg st ev)).
Proof.
  intros Hok. destruct ev as [x y|x y| |]; simpl.
  - destruct (handleCanvasClick_cases cfg x y st)
      as [[_ ->]|(e & _ & _ & He & Hk & ->)]; [done|].
    by apply board_ok_accepted.
  - unfold handleMouseMove. destruct (gameOver st); [done|].
    repeat case_match; done.
  - by apply board_ok_cleared.
  - done.
Qed.

Lemma board_ok_run cfg ps evs : board_ok cfg (run cfg ps evs).
Proof.
  apply run_ind; [by apply board_ok_cleared|]. apply board_ok_step.
Qed.

(** ** Invariant: the game is over exactly on a full board *)

Lemma totalPossibleEdges_pos cfg :
  2 ≤ rows cfg → 2 ≤ cols cfg → 0 < totalPossibleEdges cfg.
Proof. unfold totalPossibleEdges. nia. Qed.

Lemma over_ok_cleared cfg st :
  2 ≤ rows cfg → 2 ≤ cols cfg →
  edges st = ∅ → gameOver st = false → over_ok cfg st.
Proof.
  intros Hr Hc HE HG. unfold over_ok. rewrite HE, HG, size_empty.
  pose proof (totalPossibleEdges_pos cfg Hr Hc). split; [done|lia].
Qed.

Lemma adjacentCells_nonempty cfg e :
  2 ≤ rows cfg → 2 ≤ cols cfg → legal cfg e → adjacentCells cfg e ≠ [].
Proof.
  intros Hr Hc. unfold legal, adjacentCells.
  intros [(-> & ? & ? & _)|(-> & ? & ? & _)];
    repeat case_match; simpl; try done; lia.
Qed.

(** The last edge of the board completes a box. *)
Lemma completedBy_full cfg e st :
  2 ≤ rows cfg → 2 ≤ cols cfg → legal cfg e →
  {[edgeKey e]} ∪ edges st = legalKeys cfg → completedBy cfg e st ≠ [].
Proof.
  intros Hr Hc He Hfull.
  destruct (adjacentCells cfg e) as [|b l] eqn:Hadj.
  { by apply adjacentCells_nonempty in Hadj. }
  assert (b ∈ completedBy cfg e st) as Hb; [|by intros Hnil; rewrite Hnil in Hb;
                                                  apply elem_of_nil in Hb].
  unfold completedBy. rewrite Hadj, Hfull. apply list_elem_of_filter.
  split; [|by left].
  assert (inGrid cfg b) as Hg.
  { apply (adjacentCells_inGrid cfg e); [done|]. rewrite Hadj. by left. }
  apply Forall_forall. intros e' He'. apply elem_of_legalKeys.
  exists e'. split; [|done]. by apply cellBounds_legal with b.
Qed.

Lemma over_ok_accepted cfg e st :
  2 ≤ rows cfg → 2 ≤ cols cfg →
  legal cfg e → edgeKey e ∉ edges st → gameOver st = false →
  board_ok cfg st → over_ok cfg (fst (accepted cfg e st)).
Proof.
  intros Hr Hc He Hk Hg Hok.
  destruct (board_ok_accepted cfg e st He Hk Hok) as [HE' _].
  destruct (accepted_frame cfg e st) as (_ & HE & _).
  unfold over_ok. rewrite accepted_gameOver, Hg. rewrite HE in *.
  pose proof (subseteq_size _ _ HE') as Hle.
  pose proof (size_legalKeys cfg ltac:(lia) ltac:(lia)) as Htot.
  case_decide as Hcb.
  - split; [done|]. intros Hsize. destruct (completedBy_full cfg e st Hr Hc He); [|done].
    apply set_subseteq_size_eq; [done|]. lia.
  - case_match eqn:Hcmp.
    + apply Z.leb_le in Hcmp. split; [lia|done].
    + apply Z.leb_gt in Hcmp. split; [done|lia].
Qed.

Lemma over_ok_step cfg st ev :
  2 ≤ rows cfg → 2 ≤ cols cfg →
  board_ok cfg st → over_ok cfg st → over_ok cfg (fst (step cfg st ev)).
Proof.
  intros Hr Hc Hok Hov. destruct ev as [x y|x y| |]; simpl.
  - destruct (handleCanvasClick_cases cfg x y st)
      as [[_ ->]|(e & Hg & _ & He & Hk & ->)]; [done|].
    by apply over_ok_accepted.
  - unfold handleMouseMove. destruct (gameOver st) eqn:Hg; [done|].
    unfold over_ok in *. repeat case_match; simpl; done.
  - by apply over_ok_cleared.
  - done.
Qed.

Lemma over_ok_run cfg ps evs :
  2 ≤ rows cfg → 2 ≤ cols cfg → over_ok cfg (run cfg ps evs).
Proof.
  intros Hr Hc.
  cut (board_ok cfg (run cfg ps evs) ∧ over_ok cfg (run cfg ps evs)); [tauto|].
  apply run_ind.
  - split; [by apply board_ok_cleared|by apply over_ok_cleared].
  - intros st ev [Hok Hov]. split; [by apply board_ok_step|by apply over_ok_step].
Qed.

(** ** Scores *)

Lemma elem_of_indices ps i : i ∈ indices ps ↔ 0 ≤ i < Z.of_nat (length ps).
Proof.
  unfold indices. rewrite list_elem_of_fmap. setoid_rewrite elem_of_seq. split.
  - intros (n & -> & Hn). lia.
  - intros Hi. exists (Z.to_nat i). lia.
Qed.

Lemma NoDup_indices ps : NoDup (indices ps).
Proof. unfold indices. apply NoDup_fmap_2; [apply _|apply NoDup_seq]. Qed.

Lemma foldl_zero_lookup (l : list Z) (m : gmap Z Z) j :
  foldl (λ s i, <[i := 0]> s) m l !! j
  = if decide (j ∈ l) then Some 0 else m !! j.
Proof.
  revert m. induction l as [|i l IH]; intros m.
  - case_decide as Hin; [by apply elem_of_nil in Hin|done].
  - change (foldl _ m (i :: l)) with (foldl (λ s i, <[i := 0]> s) (<[i := 0]> m) l).
    rewrite IH. destruct (decide (j ∈ l)) as [Hin|Hin].
    + rewrite decide_True; [done|]. by right.
    + destruct (decide (j = i)) as [->|Hne].
      * rewrite decide_True by left. by rewrite lookup_insert_eq.
      * rewrite decide_False by (by intros [?|?]%elem_of_cons).
        by rewrite lookup_insert_ne.
Qed.

Lemma zeroScores_lookup st j :
  scores (zeroScores st) !! j
  = if decide (j ∈ indices (players st)) then Some 0 else scores st !! j.
Proof. unfold zeroScores. simpl. apply foldl_zero_lookup. Qed.

(** A sum in which one term grows by one. *)
Lemma sum_update (f g : Z → Z) (l : list Z) j :
  NoDup l → j ∈ l → g j = f j + 1 → (∀ i, i ≠ j → g i = f i) →
  foldr Z.add 0 (g <$> l) = foldr Z.add 0 (f <$> l) + 1.
Proof.
  intros Hnd Hj Hgj Hg. induction Hnd as [|i l Hi Hnd IH]; [by apply elem_of_nil in Hj|].
  rewrite !fmap_cons. simpl. apply elem_of_cons in Hj as [->|Hj].
  - rewrite Hgj. assert (g <$> l = f <$> l) as ->; [|lia].
    apply list_fmap_ext. intros k i' Hk. apply Hg. intros ->.
    apply Hi. by eapply list_elem_of_lookup_2.
  - rewrite IH by done. rewrite Hg; [lia|]. by intros ->.
Qed.

Lemma sum_zero (f : Z → Z) (l : list Z) :
  (∀ i, i ∈ l → f i = 0) → foldr Z.add 0 (f <$> l) = 0.
Proof.
  induction l as [|i l IH]; intros Hf; [done|]. rewrite fmap_cons. simpl.
  rewrite IH, Hf; [done|by left|]. intros k Hk. apply Hf. by right.
Qed.

Lemma award_scoreOf st b i :
  scoreOf (award st b) i
  = if decide (i = currentPlayer st) then scoreOf st i + 1 else scoreOf st i.
Proof.
  unfold scoreOf, award. simpl. case_decide as Hi.
  - subst i. by rewrite lookup_insert_eq.
  - by rewrite lookup_insert_ne.
Qed.

Lemma award_base ps st b :
  scores_base ps st →
  scores_base ps (award st b) ∧ totalScore (award st b) = totalScore st + 1.
Proof.
  intros (Hp & Hcur & Hdom & Hpos). split; [split_and!|].
  - exact Hp.
  - exact (proj1 Hcur).
  - exact (proj2 Hcur).
  - intros i. rewrite <- Hdom. unfold award; simpl.
    destruct (decide (i = currentPlayer st)) as [->|Hne].
    + rewrite lookup_insert_eq. split; [|eauto]. intros _.
      apply Hdom, elem_of_indices. done.
    + by rewrite lookup_insert_ne.
  - intros i. rewrite award_scoreOf. specialize (Hpos i). case_decide; lia.
  - unfold totalScore. change (players (award st b)) with (players st).
    apply sum_update with (currentPlayer st).
    + apply NoDup_indices.
    + apply elem_of_indices. by rewrite Hp.
    + rewrite award_scoreOf. by rewrite decide_True.
    + intros i Hi. rewrite award_scoreOf. by rewrite decide_False.
Qed.

Lemma foldl_award_base ps cb st :
  scores_base ps st →
  scores_base ps (foldl award st cb)
  ∧ totalScore (foldl award st cb) = totalScore st + Z.of_nat (length cb).
Proof.
  revert st. induction cb as [|b cb IH]; intros st Hst.
  - simpl. split; [done|lia].
  - change (foldl award st (b :: cb)) with (foldl award (award st b) cb).
    destruct (award_base ps st b Hst) as [Hb Ht].
    destruct (IH _ Hb) as [Hb' Ht']. split; [done|].
    rewrite Ht', Ht. simpl length. lia.
Qed.

Lemma foldl_award_size st cb :
  NoDup (boxKeyOf <$> cb) →
  (∀ b, b ∈ cb → boxKeyOf b ∉ dom (boxes st)) →
  size (boxes (foldl award st cb)) = (size (boxes st) + length cb)%nat.
Proof.
  intros Hnd Hfresh.
  rewrite <- !(size_dom (D:=gset string)), foldl_award_dom, size_union.
  - by rewrite size_list_to_set, length_fmap.
  - intros k Hk (b & -> & Hb)%elem_of_list_to_set%list_elem_of_fmap.
    by apply (Hfresh b).
Qed.

(** ** Invariant: scores count the owned boxes *)

Lemma scores_ok_cleared ps st :
  ps ≠ [] → players st = ps → currentPlayer st = 0 → boxes st = ∅ →
  (∀ i, is_Some (scores st !! i) → i ∈ indices ps) →
  scores_ok ps (zeroScores st).
Proof.
  intros Hne Hp Hc Hb Hdom. split; [split_and!|].
  - exact Hp.
  - simpl. lia.
  - simpl. rewrite Hc. destruct ps; [done|]. simpl length. lia.
  - intros i. rewrite zeroScores_lookup, Hp. case_decide as Hi.
    + split; eauto.
    + split; [apply Hdom|done].
  - intros i. unfold scoreOf. rewrite zeroScores_lookup. case_decide; simpl; [lia|].
    destruct (scores st !! i) eqn:Hi; simpl; [|lia].
    rewrite Hp in *. destruct H. apply Hdom. eauto.
  - simpl. rewrite Hb, map_size_empty. unfold totalScore. simpl.
    apply sum_zero. intros i Hi. unfold scoreOf. rewrite zeroScores_lookup.
    by rewrite decide_True.
Qed.

Lemma scores_ok_ext ps st st' :
  players st' = players st → currentPlayer st' = currentPlayer st →
  scores st' = scores st → boxes st' = boxes st →
  scores_ok ps st → scores_ok ps st'.
Proof.
  unfold scores_ok, scores_base, totalScore, scoreOf.
  intros -> -> -> ->. done.
Qed.

Lemma completedBy_not_owned cfg e st b :
  legal cfg e → edgeKey e ∉ edges st → board_ok cfg st →
  b ∈ completedBy cfg e st → boxKeyOf b ∉ dom (boxes st).
Proof.
  intros He Hk [_ HB] Hb Hdom.
  destruct (completedBy_fresh cfg e st b He Hk Hb) as [_ Hnc].
  apply HB in Hdom as (b' & _ & Hc & Heq). apply (inj boxKeyOf) in Heq as ->.
  done.
Qed.

Lemma scores_ok_accepted cfg ps e st :
  ps ≠ [] → legal cfg e → edgeKey e ∉ edges st → board_ok cfg st →
  scores_ok ps st → scores_ok ps (fst (accepted cfg e st)).
Proof.
  intros Hne He Hk Hok [Hbase Htot]. unfold accepted.
  fold (completedBy cfg e st). simpl.
  set (st1 := set_edges ({[edgeKey e]} ∪ edges st) st).
  assert (scores_base ps st1) as Hbase1 by exact Hbase.
  case_decide as Hcb; simpl.
  - destruct Hbase as (Hp & Hcur & Hdom & Hpos).
    pose proof (Z.rem_bound_pos (currentPlayer st + 1) (Z.of_nat (length ps))
                  ltac:(lia) ltac:(lia)) as Hrem.
    split; [split_and!|]; try done; simpl; rewrite Hp; lia.
  - destruct (foldl_award_base ps (completedBy cfg e st) st1 Hbase1) as [Hb2 Ht2].
    assert (scores_ok ps (foldl award st1 (completedBy cfg e st))) as Hok2.
    { split; [done|]. rewrite Ht2, foldl_award_size.
      - change (boxes st1) with (boxes st). change (totalScore st1) with (totalScore st).
        lia.
      - apply NoDup_completedBy_keys.
      - intros b Hb. change (boxes st1) with (boxes st).
        by apply (completedBy_not_owned cfg e). }
    fold (completedBy cfg e st).
    case_match; simpl; [|done]. revert Hok2. by apply scores_ok_ext.
Qed.

Lemma scores_ok_step cfg ps st ev :
  ps ≠ [] → board_ok cfg st → scores_ok ps st →
  scores_ok ps (fst (step cfg st ev)).
Proof.
  intros Hne Hok Hsc. destruct ev as [x y|x y| |]; simpl.
  - destruct (handleCanvasClick_cases cfg x y st)
      as [[_ ->]|(e & _ & _ & He & Hk & ->)]; [done|].
    by apply scores_ok_accepted.
  - unfold handleMouseMove. destruct (gameOver st); [done|]. simpl.
    revert Hsc. apply scores_ok_ext; by repeat case_match.
  - destruct Hsc as [(Hp & _ & Hdom & _) _].
    apply scores_ok_cleared; try done. intros i. apply Hdom.
  - revert Hsc. by apply scores_ok_ext.
Qed.

Lemma scores_ok_run cfg ps evs : ps ≠ [] → scores_ok ps (run cfg ps evs).
Proof.
  intros Hne.
  cut (board_ok cfg (run cfg ps evs) ∧ scores_ok ps (run cfg ps evs)); [tauto|].
  apply run_ind.
  - split; [by apply board_ok_cleared|].
    apply scores_ok_ext with (zeroScores (state0 ps)); try done.
    apply scores_ok_cleared; try done.
    intros i [v Hv]. simpl in Hv. by rewrite lookup_empty in Hv.
  - intros st ev [Hok Hsc]. split; [by apply board_ok_step|by apply scores_ok_step].
Qed.

(** ** Invariant: the canvas layout and the players do not change *)

Lemma layout_ok_run cfg ps evs : layout_ok cfg ps (run cfg ps evs).
Proof.
  apply run_ind; [done|].
  intros st ev (Hp & Hc & Hb). destruct ev as [x y|x y| |]; simpl.
  - destruct (handleCanvasClick_cases cfg x y st)
      as [[_ ->]|(e & _ & _ & _ & _ & ->)]; [done|].
    destruct (accepted_frame cfg e st) as (Hp' & _ & _ & Hc' & Hb').
    unfold layout_ok. rewrite Hp', Hc', Hb'. done.
  - unfold handleMouseMove. destruct (gameOver st); [done|].
    by repeat case_match.
  - done.
  - done.
Qed.

(** ** The winner computation *)

Lemma max_snoc b (l : list Z) x :
  foldr Z.max b (l ++ [x]) = Z.max (foldr Z.max b l) x.
Proof. induction l as [|y l IH]; simpl; lia. Qed.

Lemma max_ge b (l : list Z) x : x ∈ l → x ≤ foldr Z.max b l.
Proof.
  induction l as [|y l IH]; [by intros ?%elem_of_nil|].
  intros [->|Hx%IH]%elem_of_cons; simpl; lia.
Qed.

Lemma max_base (l : list Z) :
  l ≠ [] → (∀ x, x ∈ l → 0 ≤ x) → foldr Z.max (-1) l = foldr Z.max 0 l.
Proof.
  induction l as [|x l IH]; [done|]. intros _ Hpos. simpl.
  destruct l as [|y l].
  - simpl. specialize (Hpos x ltac:(by left)). lia.
  - rewrite IH; [done|done|]. intros z Hz. apply Hpos. by right.
Qed.

Lemma filter_none {A} (P : A → Prop) `{∀ x, Decision (P x)} (l : list A) :
  (∀ x, x ∈ l → ¬ P x) → filter P l = [].
Proof.
  induction l as [|x l IH]; intros Hl; [done|].
  rewrite filter_cons, decide_False by (apply Hl; by left).
  apply IH. intros y Hy. apply Hl. by right.
Qed.

(** The loop of [endGame] over a list [l] of players with scores [f]:
    it ends with the largest score, the first player who has it, and the
    flag saying whether another player has it too. *)
Lemma foldl_winnerStep (sc : gmap Z Z) (f : Z → Z) (l : list Z) :
  (∀ i, i ∈ l → sc !! i = Some (f i) ∧ 0 ≤ f i) →
  ∃ m w t,
    foldl (winnerStep sc) (-1, -1, false) l = (m, w, t)
    ∧ m = foldr Z.max (-1) (f <$> l)
    ∧ (l ≠ [] → ∃ rest, filter (λ i, f i = m) l = w :: rest
                         ∧ (t = true ↔ rest ≠ [])).
Proof.
  induction l as [|x l IH] using rev_ind; intros Hl.
  { exists (-1), (-1), false. done. }
  destruct IH as (m & w & t & Hfold & Hm & Hw).
  { intros i Hi. apply Hl, elem_of_app. by left. }
  destruct (Hl x) as [Hx Hx0]; [apply elem_of_app; right; by left|].
  assert (∀ i, i ∈ l → f i ≤ m) as Hle.
  { intros i Hi. rewrite Hm. by apply max_ge, list_elem_of_fmap_2. }
  assert (l = [] → m = -1) as Hnil by (by intros ->).
  assert (foldr Z.max (-1) (f <$> l ++ [x]) = Z.max m (f x)) as Hmax.
  { rewrite fmap_app. simpl. by rewrite max_snoc, <- Hm. }
  assert (foldl (winnerStep sc) (-1, -1, false) (l ++ [x])
          = if m <? f x then (f x, x, false)
            else if f x =? m then (m, w, true) else (m, w, t)) as Hstep.
  { rewrite foldl_snoc, Hfold. simpl. by rewrite Hx. }
  rewrite Hstep, Hmax. clear Hstep Hmax.
  destruct (Z.ltb_spec m (f x)) as [Hlt|Hge].
  - exists (f x), x, false. split_and!; [done|lia|]. intros _. exists [].
    rewrite filter_app, filter_cons, filter_nil, decide_True by done.
    rewrite (filter_none (λ i, f i = f x) l); [done|].
    intros i Hi. specialize (Hle i Hi). lia.
  - destruct (Z.eqb_spec (f x) m) as [Heq|Hne].
    + exists m, w, true. split_and!; [done|lia|]. intros _.
      destruct Hw as (rest & Hrest & _). { intros ->. specialize (Hnil eq_refl). lia. }
      exists (rest ++ [x]).
      rewrite filter_app, filter_cons, filter_nil, decide_True, Hrest by done.
      split; [done|]. split; [|done]. intros _. by destruct rest.
    + exists m, w, t. split_and!; [done|lia|]. intros _.
      destruct Hw as (rest & Hrest & Ht). { intros ->. specialize (Hnil eq_refl). lia. }
      exists rest.
      rewrite filter_app, filter_cons, filter_nil, decide_False, Hrest by done.
      by rewrite app_nil_r.
Qed.

Lemma findWinner_spec ps st :
  ps ≠ [] → scores_base ps st →
  ∃ w t rest,
    findWinner st = (maxScoreOf st, w, t)
    ∧ winners st = w :: rest
    ∧ (t = true ↔ rest ≠ []).
Proof.
  intros Hne (Hp & _ & Hdom & Hpos).
  destruct (foldl_winnerStep (scores st) (scoreOf st) (indices (players st)))
    as (m & w & t & Hfold & Hm & Hw).
  { intros i Hi. split; [|done]. rewrite Hp in Hi. apply Hdom in Hi as [v Hv].
    unfold scoreOf. by rewrite Hv. }
  assert (indices (players st) ≠ []) as Hnil.
  { rewrite Hp. unfold indices. destruct ps; done. }
  assert (m = maxScoreOf st) as ->.
  { rewrite Hm. unfold maxScoreOf. apply max_base.
    - by destruct (indices (players st)).
    - intros x (i & -> & _)%list_elem_of_fmap. done. }
  destruct (Hw Hnil) as (rest & Hrest & Ht).
  exists w, t, rest. done.
Qed.

Lemma elem_of_winners st i :
  i ∈ winners st ↔ scoreOf st i = maxScoreOf st ∧ i ∈ indices (players st).
Proof.
  unfold winners.
  exact (list_elem_of_filter (λ i, scoreOf st i = maxScoreOf st) _ i).
Qed.

(** What [endGame] writes, from the set of winners. *)
Lemma winnerMessage_spec ps st :
  ps ≠ [] → scores_base ps st →
  (∃ w name, winners st = [w] ∧ ps !! Z.to_nat w = Some name
     ∧ winnerMessage st = "Player " +:+ name +:+ " wins with "
                           +:+ pretty (maxScoreOf st) +:+ " points!")
  ∨ ((1 < length (winners st))%nat ∧ winnerMessage st = "It's a tie!").
Proof.
  intros Hne Hbase.
  destruct (findWinner_spec ps st Hne Hbase) as (w & t & rest & Hfw & Hw & Ht).
  unfold winnerMessage. rewrite Hfw. destruct t.
  - right. split; [|done]. rewrite Hw. destruct rest; [|simpl; lia].
    by destruct (proj1 Ht).
  - left. destruct rest as [|? ?]; [|discriminate (proj2 Ht ltac:(done))].
    assert (w ∈ indices ps) as Hi.
    { destruct Hbase as (Hp & _). rewrite <- Hp.
      apply (elem_of_winners st w). rewrite Hw. by left. }
    apply elem_of_indices in Hi.
    destruct (lookup_lt_is_Some_2 ps (Z.to_nat w)) as [name Hname]; [lia|].
    exists w, name. split_and!; [done..|].
    unfold playerName. destruct Hbase as (-> & _).
    destruct (Z.ltb_spec w 0); [lia|]. by rewrite Hname.
Qed.

(** ** Pointing at an edge *)

Lemma Qltb_true a b : Qltb a b = true ↔ (a < b)%Q.
Proof.
  unfold Qltb. rewrite negb_true_iff, <- not_true_iff_false, Qle_bool_iff.
  split; [apply Qnot_le_lt|apply Qlt_not_le].
Qed.

Lemma Qabs_diff_lt (a b : Z) :
  Qltb (Qabs (inject_Z a - inject_Z b)) 15 = true ↔ Z.abs (a - b) < 15.
Proof.
  rewrite Qltb_true. unfold Qlt, Qabs, Qminus, Qplus, Qopp, inject_Z. simpl.
  lia.
Qed.

Lemma Math_round_grid (o k d cs : Z) :
  0 < cs → - cs ≤ 2 * d < cs →
  Math_round ((inject_Z (o + k * cs + d) - inject_Z o) / inject_Z cs) = k.
Proof.
  intros Hcs Hd. unfold Math_round.
  assert (¬ (inject_Z cs == 0)%Q) as Hne.
  { unfold Qeq, inject_Z. simpl. lia. }
  rewrite (Qfloor_comp _ (inject_Z (2 * (k * cs + d) + cs) / inject_Z (2 * cs))).
  - rewrite <- Zdiv_Qdiv. symmetry. apply Z.div_unique with (2 * d + cs); lia.
  - repeat first [rewrite inject_Z_plus | rewrite inject_Z_mult].
    change (inject_Z 2) with 2%Q. field. done.
Qed.

Lemma Math_round_dot (o k cs : Z) :
  0 < cs → Math_round ((inject_Z (o + k * cs) - inject_Z o) / inject_Z cs) = k.
Proof.
  intros Hcs. replace (o + k * cs) with (o + k * cs + 0) by lia.
  apply Math_round_grid; lia.
Qed.

Lemma findNearestEdge_offset cfg st st' x y :
  boardOffset st' = boardOffset st →
  findNearestEdge cfg st' x y = findNearestEdge cfg st x y.
Proof. unfold findNearestEdge. by intros ->. Qed.

(** Every edge of the grid can be pointed at. *)
Lemma findNearestEdge_pointOn cfg st e :
  30 < cellSize cfg → legal cfg e →
  boardOffset st = (margin cfg, margin cfg + gridPaddingTop cfg) →
  findNearestEdge cfg st (fst (pointOn cfg e)) (snd (pointOn cfg e)) = Some e.
Proof.
  intros Hcs He Hoff. destruct e as [r c r' c' h].
  unfold legal in He. simpl in He. unfold findNearestEdge, pointOn. rewrite Hoff.
  destruct (Z.eqb_spec (cellSize cfg) 0) as [Hz|_]; [lia|].
  destruct He as [(-> & Hr & Hc & -> & ->)|(-> & Hr & Hc & -> & ->)];
    cbn [fst snd r1 c1 r2 c2 isHorizontal].
  - rewrite Math_round_grid, Math_round_dot by lia.
    rewrite (proj2 (Qabs_diff_lt _ _)) by lia.
    rewrite (proj2 (Z.leb_le 0 c)), (proj2 (Z.leb_le 0 r)) by lia.
    rewrite (proj2 (Z.ltb_lt c _)), (proj2 (Z.ltb_lt r _)) by lia.
    done.
  - rewrite Math_round_grid, Math_round_dot by lia.
    assert (Qltb (Qabs (inject_Z (margin cfg + gridPaddingTop cfg
                                   + r * cellSize cfg + 15)
                        - inject_Z (margin cfg + gridPaddingTop cfg
                                    + r * cellSize cfg))) 15 = false) as ->.
    { apply not_true_iff_false. rewrite Qabs_diff_lt. lia. }
    cbn [andb].
    rewrite (proj2 (Qabs_diff_lt _ _)) by lia.
    rewrite (proj2 (Z.leb_le 0 c)), (proj2 (Z.leb_le 0 r)) by lia.
    rewrite (proj2 (Z.ltb_lt c _)), (proj2 (Z.ltb_lt r _)) by lia.
    done.
Qed.

Lemma run_boardOffset cfg ps evs :
  boardOffset (run cfg ps evs) = (margin cfg, margin cfg + gridPaddingTop cfg).
Proof. by destruct (layout_ok_run cfg ps evs) as (_ & _ & ->). Qed.

(** ** Owners stay *)

Lemma step_keeps_owner cfg st ev k p :
  board_ok cfg st → ev ≠ Restart → boxes st !! k = Some p →
  boxes (fst (step cfg st ev)) !! k = Some p.
Proof.
  intros Hok Hev Hk. destruct ev as [x y|x y| |]; simpl; [| |done|done].
  - destruct (handleCanvasClick_cases cfg x y st)
      as [[_ ->]|(e & _ & _ & He & Hfresh & ->)]; [done|].
    rewrite accepted_boxes, foldl_award_boxes. simpl.
    rewrite decide_False; [done|].
    intros (b & -> & Hb)%list_elem_of_fmap.
    apply (completedBy_not_owned cfg e st b); try done.
    by apply elem_of_dom_2 with p.
  - unfold handleMouseMove. destruct (gameOver st); [done|].
    by repeat case_match.
Qed.

Lemma run_keeps_owner cfg ps evs evs' k p :
  Restart ∉ evs' → boxes (run cfg ps evs) !! k = Some p →
  boxes (run cfg ps (evs ++ evs')) !! k = Some p.
Proof.
  induction evs' as [|ev evs' IH] using rev_ind; intros Hno Hk.
  - by rewrite app_nil_r.
  - rewrite app_assoc, run_snoc. apply step_keeps_owner.
    + apply board_ok_run.
    + intros ->. apply Hno, elem_of_app. right. by left.
    + apply IH; [|done]. intros Hin. apply Hno, elem_of_app. by left.
Qed.

(** ** The score of a player is the number of boxes of that player *)

Lemma award_owned st b i :
  boxKeyOf b ∉ dom (boxes st) →
  ownedBy (award st b) i
  = (ownedBy st i + if decide (i = currentPlayer st) then 1 else 0)%nat.
Proof.
  intros Hfresh%not_elem_of_dom. unfold ownedBy, award. simpl.
  rewrite map_filter_insert. simpl.
  destruct (decide (currentPlayer st = i)) as [Heq|Hne].
  - rewrite decide_True by done. rewrite map_size_insert_None; [lia|].
    apply map_lookup_filter_None_2. by left.
  - rewrite decide_False by done. rewrite delete_id by done. lia.
Qed.

Lemma award_owned_ok st b :
  boxKeyOf b ∉ dom (boxes st) → owned_ok st → owned_ok (award st b).
Proof.
  intros Hfresh Hok i. rewrite award_scoreOf, award_owned, Hok by done.
  case_decide; lia.
Qed.

Lemma foldl_award_owned_ok cb st :
  NoDup (boxKeyOf <$> cb) →
  (∀ b, b ∈ cb → boxKeyOf b ∉ dom (boxes st)) →
  owned_ok st → owned_ok (foldl award st cb).
Proof.
  revert st. induction cb as [|b cb IH]; intros st Hnd Hfresh Hok; [done|].
  change (foldl award st (b :: cb)) with (foldl award (award st b) cb).
  rewrite fmap_cons in Hnd. apply NoDup_cons in Hnd as [Hb Hnd].
  apply IH; [done| |].
  - intros b' Hb'. unfold award; simpl. rewrite dom_insert_L.
    intros [Heq%elem_of_singleton|Hin]%elem_of_union.
    + apply Hb. rewrite <- Heq. by apply list_elem_of_fmap_2.
    + apply (Hfresh b'); [by right|done].
  - apply award_owned_ok; [|done]. apply Hfresh. by left.
Qed.

Lemma owned_ok_ext st st' :
  scores st' = scores st → boxes st' = boxes st → owned_ok st → owned_ok st'.
Proof. unfold owned_ok, ownedBy, scoreOf. by intros -> ->. Qed.

Lemma owned_ok_cleared ps st :
  players st = ps → boxes st = ∅ →
  (∀ i, is_Some (scores st !! i) → i ∈ indices ps) →
  owned_ok (zeroScores st).
Proof.
  intros Hp Hb Hdom i. unfold ownedBy, scoreOf.
  change (boxes (zeroScores st)) with (boxes st).
  rewrite Hb, map_filter_empty, map_size_empty, zeroScores_lookup, Hp.
  case_decide as Hi; [done|].
  destruct (scores st !! i) eqn:Hs; [|done]. destruct Hi. apply Hdom. eauto.
Qed.

Lemma owned_ok_accepted cfg e st :
  legal cfg e → edgeKey e ∉ edges st → board_ok cfg st →
  owned_ok st → owned_ok (fst (accepted cfg e st)).
Proof.
  intros He Hk Hok Hown.
  apply owned_ok_ext with
    (foldl award (set_edges ({[edgeKey e]} ∪ edges st) st) (completedBy cfg e st)).
  - apply accepted_scores.
  - apply accepted_boxes.
  - apply foldl_award_owned_ok; [apply NoDup_completedBy_keys| |done].
    intros b Hb. simpl. by apply (completedBy_not_owned cfg e).
Qed.

Lemma owned_ok_run cfg ps evs : ps ≠ [] → owned_ok (run cfg ps evs).
Proof.
  intros Hne.
  cut (board_ok cfg (run cfg ps evs) ∧ scores_ok ps (run cfg ps evs)
       ∧ owned_ok (run cfg ps evs)); [tauto|].
  apply run_ind.
  - split; [by apply board_ok_cleared|]. split; [apply (scores_ok_run cfg ps []); done|].
    apply owned_ok_ext with (zeroScores (state0 ps)); [done..|].
    apply owned_ok_cleared with ps; [done..|].
    intros i [v Hv]. simpl in Hv. by rewrite lookup_empty in Hv.
  - intros st ev (Hok & Hsc & Hown).
    split; [by apply board_ok_step|]. split; [by apply scores_ok_step|].
    destruct ev as [x y|x y| |]; simpl.
    + destruct (handleCanvasClick_cases cfg x y st)
        as [[_ ->]|(e & _ & _ & He & Hk & ->)]; [done|].
      by apply owned_ok_accepted.
    + unfold handleMouseMove. destruct (gameOver st); [done|]. simpl.
      revert Hown. apply owned_ok_ext; by repeat case_match.
    + destruct Hsc as [(Hp & _ & Hdom & _) _].
      apply owned_ok_cleared with ps; [done..|]. intros i. apply Hdom.
    + done.
Qed.

(** ** Reset *)

Lemma state_eq (s t : state) :
  players s = players t → currentPlayer s = currentPlayer t →
  scores s = scores t → edges s = edges t → boxes s = boxes t →
  highlightedEdge s = highlightedEdge t → gameOver s = gameOver t →
  canvasSize s = canvasSize t → boardOffset s = boardOffset t → s = t.
Proof. destruct s, t. simpl. by intros -> -> -> -> -> -> -> -> ->. Qed.

(** ** The end of the game *)

Lemma accepted_ends cfg e st :
  gameOver st = false → gameOver (fst (accepted cfg e st)) = true →
  snd (accepted cfg e st)
  = [SetWinnerText (winnerMessage (fst (accepted cfg e st)));
     SetGameOverDisplay "flex"].
Proof.
  intros Hg. unfold accepted. simpl. case_decide as Hcb; simpl.
  { by rewrite Hg. }
  case_match; simpl; [done|].
  destruct (foldl_award_frame (set_edges ({[edgeKey e]} ∪ edges st) st)
              (filter (complete ({[edgeKey e]} ∪ edges st)) (adjacentCells cfg e)))
    as (_ & _ & _ & _ & -> & _).
  simpl. by rewrite Hg.
Qed.

Lemma step_ends cfg st ev :
  gameOver st = false → gameOver (fst (step cfg st ev)) = true →
  snd (step cfg st ev)
  = [SetWinnerText (winnerMessage (fst (step cfg st ev)));
     SetGameOverDisplay "flex"].
Proof.
  intros Hg. destruct ev as [x y|x y| |]; simpl.
  - destruct (handleCanvasClick_cases cfg x y st)
      as [[_ ->]|(e & _ & _ & _ & _ & ->)]; [simpl; congruence|].
    by apply accepted_ends.
  - unfold handleMouseMove. rewrite Hg. by repeat case_match; simpl; rewrite Hg.
  - done.
  - by rewrite Hg.
Qed.

Lemma maxScoreOf_ge st i : i ∈ indices (players st) → scoreOf st i ≤ maxScoreOf st.
Proof. intros Hi. unfold maxScoreOf. by apply max_ge, list_elem_of_fmap_2. Qed.

(** * The properties *)

(** C1.  In every state of a game on a grid of at least two by two dots,
    [gameOver] is set exactly when the number of drawn edges is
    [(rows-1)*cols + rows*(cols-1)]; the number never exceeds it; and the
    click that draws the last missing edge completes a box, so that the test
    of [isGameOver] is reached and ends the game. *)
Theorem gameOver_iff_board_full cfg ps evs :
  2 ≤ rows cfg → 2 ≤ cols cfg →
  let st := run cfg ps evs in
  (gameOver st = true ↔ Z.of_nat (size (edges st)) = totalPossibleEdges cfg)
  ∧ Z.of_nat (size (edges st)) ≤ totalPossibleEdges cfg
  ∧ ∀ x y e,
      gameOver st = false → findNearestEdge cfg st x y = Some e →
      edgeKey e ∉ edges st →
      Z.of_nat (size (edges st)) + 1 = totalPossibleEdges cfg →
      checkForCompletedBoxes cfg (set_edges ({[edgeKey e]} ∪ edges st) st) e ≠ []
      ∧ gameOver (fst (handleCanvasClick cfg x y st)) = true.
Proof.
  intros Hr Hc st.
  pose proof (over_ok_run cfg ps evs Hr Hc) as Hov.
  destruct (board_ok_run cfg ps evs) as [HE HB].
  pose proof (size_legalKeys cfg ltac:(lia) ltac:(lia)) as Htot.
  pose proof (subseteq_size _ _ HE) as Hle.
  split; [exact Hov|]. split; [fold st in Hle; lia|].
  intros x y e Hg He Hk Hlast.
  pose proof (findNearestEdge_legal _ _ _ _ _ He) as Hleg.
  assert (size ({[edgeKey e]} ∪ edges st) = S (size (edges st))) as Hsize.
  { rewrite size_union by (by apply disjoint_singleton_l).
    by rewrite size_singleton. }
  assert ({[edgeKey e]} ∪ edges st = legalKeys cfg) as Hfull.
  { apply set_subseteq_size_eq; [|lia].
    apply union_least; [|done].
    apply singleton_subseteq_l, elem_of_legalKeys. eauto. }
  split.
  - rewrite checkForCompletedBoxes_filter;
      [|done|by apply elem_of_union_l, elem_of_singleton].
    by apply (completedBy_full cfg e st).
  - rewrite (handleCanvasClick_accepted cfg x y st e) by done.
    apply (over_ok_accepted cfg e st Hr Hc Hleg Hk Hg (conj HE HB)).
    destruct (accepted_frame cfg e st) as (_ & -> & _). lia.
Qed.

Lemma gameOver_iff_board_full_witness :
  gameOver (run (gridConfig 2 2) ["A"; "B"] game2x2) = true
  ↔ Z.of_nat (size (edges (run (gridConfig 2 2) ["A"; "B"] game2x2)))
    = totalPossibleEdges (gridConfig 2 2).
Proof.
  apply (gameOver_iff_board_full (gridConfig 2 2) ["A"; "B"] game2x2); simpl; lia.
Defined.

(** C2.  In every state of a game, the keys of [boxes] are exactly the
    boxes of the grid whose four sides are drawn; no event other than a
    restart changes or removes an entry of [boxes], so an entry stays as it
    is for as long as the game is not restarted. *)
Theorem owners_are_complete_boxes cfg ps evs :
  let st := run cfg ps evs in
  (∀ b, inGrid cfg b → (boxKeyOf b ∈ dom (boxes st) ↔ complete (edges st) b))
  ∧ (∀ k, k ∈ dom (boxes st) → ∃ b, inGrid cfg b ∧ k = boxKeyOf b)
  ∧ (∀ ev k p, ev ≠ Restart → boxes st !! k = Some p →
               boxes (fst (step cfg st ev)) !! k = Some p)
  ∧ (∀ evs' k p, Restart ∉ evs' → boxes st !! k = Some p →
                 boxes (run cfg ps (evs ++ evs')) !! k = Some p).
Proof.
  intros st. pose proof (board_ok_run cfg ps evs) as Hok.
  destruct Hok as [HE HB]. fold st in HE, HB. split_and!.
  - intros b Hb. rewrite HB. split.
    + intros (b' & _ & Hc & ->%(inj boxKeyOf)). done.
    + intros Hc. eauto.
  - intros k (b & Hb & _ & ->)%HB. eauto.
  - intros ev k p. by apply step_keeps_owner.
  - intros evs' k p. apply run_keeps_owner.
Qed.

Lemma owners_are_complete_boxes_witness :
  boxKeyOf {| box_r := 0; box_c := 0 |}
    ∈ dom (boxes (run (gridConfig 2 2) ["A"; "B"] game2x2))
  ∧ boxes (fst (step (gridConfig 2 2) (run (gridConfig 2 2) ["A"; "B"] game2x2)
                  (MouseMove 0 0))) !! "0,0" = Some 1.
Proof.
  destruct (owners_are_complete_boxes (gridConfig 2 2) ["A"; "B"] game2x2)
    as (Hiff & _ & Hkeep & _).
  split.
  - apply Hiff; [unfold inGrid; simpl; lia|].
    apply (bool_decide_unpack _). vm_compute. exact I.
  - apply Hkeep; [discriminate|]. vm_compute. reflexivity.
Defined.

(** C3.  An accepted click (the game is running, the click is on an edge
    that is not drawn yet) adds the edge.  If no box of the grid became
    complete, the turn passes to the next player, modulo the number of
    players; if some box became complete, the player stays the same (also
    when the click ends the game). *)
Theorem turn_advances_unless_box_completed cfg ps evs x y e :
  ps ≠ [] →
  let st := run cfg ps evs in
  gameOver st = false → findNearestEdge cfg st x y = Some e →
  edgeKey e ∉ edges st →
  let st' := fst (handleCanvasClick cfg x y st) in
  edges st' = {[edgeKey e]} ∪ edges st
  ∧ 0 ≤ currentPlayer st < Z.of_nat (length ps)
  ∧ ((∀ b, inGrid cfg b → complete (edges st') b → complete (edges st) b) →
     currentPlayer st' = (currentPlayer st + 1) `mod` Z.of_nat (length ps))
  ∧ ((∃ b, inGrid cfg b ∧ complete (edges st') b ∧ ¬ complete (edges st) b) →
     currentPlayer st' = currentPlayer st).
Proof.
  intros Hne st Hg He Hk st'.
  pose proof (findNearestEdge_legal _ _ _ _ _ He) as Hleg.
  destruct (scores_ok_run cfg ps evs Hne) as [(Hp & Hcur & _) _]. fold st in Hp, Hcur.
  assert (st' = fst (accepted cfg e st)) as Hst'.
  { unfold st'. by rewrite (handleCanvasClick_accepted cfg x y st e). }
  destruct (accepted_frame cfg e st) as (_ & HE & _).
  pose proof (accepted_currentPlayer cfg e st) as Hc.
  rewrite <- Hst' in HE, Hc. rewrite HE. split; [done|]. split; [done|].
  case_decide as Hcb; rewrite Hc; split.
  - intros _. rewrite Hp. apply Z.rem_mod_nonneg; lia.
  - intros (b & Hb & Hc' & Hnc).
    apply (proj1 (completedBy_iff cfg e st b Hleg Hb)) in Hc' as [?|Hin]; [done|].
    rewrite Hcb in Hin. by apply elem_of_nil in Hin.
  - intros Hnone. destruct (completedBy cfg e st) as [|b cb] eqn:Hcbs; [done|].
    assert (b ∈ completedBy cfg e st) as Hin by (rewrite Hcbs; by left).
    destruct (completedBy_fresh cfg e st b Hleg Hk Hin) as [Hb Hnc].
    destruct Hnc. apply Hnone; [done|].
    apply (proj2 (completedBy_iff cfg e st b Hleg Hb)). by right.
  - done.
Qed.

Lemma turn_advances_unless_box_completed_witness :
  currentPlayer (fst (handleCanvasClick (gridConfig 2 2) (30 # 1) (50 # 1)
                        (run (gridConfig 2 2) ["A"; "B"] [])))
  = (currentPlayer (run (gridConfig 2 2) ["A"; "B"] []) + 1) `mod` 2.
Proof.
  refine (proj1 (proj2 (proj2
    (turn_advances_unless_box_completed (gridConfig 2 2) ["A"; "B"] []
       (30 # 1) (50 # 1) (hEdge 0 0) _ _ _ _))) _).
  - discriminate.
  - reflexivity.
  - vm_compute. reflexivity.
  - apply (bool_decide_unpack _). vm_compute. exact I.
  - intros b Hb Hc. exfalso. destruct b as [r c].
    unfold inGrid in Hb. simpl in Hb.
    assert (r = 0 ∧ c = 0) as [-> ->] by lia.
    revert Hc. apply (bool_decide_eq_false_1 _). vm_compute. reflexivity.
Defined.

(** C4, as amended.  The click that ends the game writes the outcome into
    the dialog and shows it.  The largest score of a player is computed;
    when exactly one player has it, the text names that player and the
    score; when several players have it, the text is the fixed tie message,
    which does not name them. *)
Theorem endGame_reports_winner_or_tie cfg ps evs ev :
  ps ≠ [] →
  let st := run cfg ps evs in
  let st' := fst (step cfg st ev) in
  gameOver st = false → gameOver st' = true →
  ∃ txt,
    snd (step cfg st ev) = [SetWinnerText txt; SetGameOverDisplay "flex"]
    ∧ (∀ i, i ∈ indices ps → scoreOf st' i ≤ maxScoreOf st')
    ∧ (∀ i, i ∈ winners st' ↔ scoreOf st' i = maxScoreOf st' ∧ i ∈ indices ps)
    ∧ ((∃ w name, winners st' = [w] ∧ ps !! Z.to_nat w = Some name
          ∧ txt = "Player " +:+ name +:+ " wins with "
                  +:+ pretty (maxScoreOf st') +:+ " points!")
       ∨ ((1 < length (winners st'))%nat ∧ txt = "It's a tie!")).
Proof.
  intros Hne st st' Hg Hg'.
  pose proof (scores_ok_run cfg ps (evs ++ [ev]) Hne) as [Hbase _].
  rewrite run_snoc in Hbase. fold st in Hbase. fold st' in Hbase.
  assert (players st' = ps) as Hp by apply Hbase.
  exists (winnerMessage st'). split_and!.
  - by apply step_ends.
  - intros i Hi. apply maxScoreOf_ge. by rewrite Hp.
  - intros i. rewrite elem_of_winners. by rewrite Hp.
  - by apply winnerMessage_spec.
Qed.

Lemma endGame_reports_winner_or_tie_witness :
  ∃ txt,
    snd (step (gridConfig 2 3) (run (gridConfig 2 3) ["A"; "B"; "C"] tieAC) lastClick)
    = [SetWinnerText txt; SetGameOverDisplay "flex"]
    ∧ (1 < length (winners (fst (step (gridConfig 2 3)
                                   (run (gridConfig 2 3) ["A"; "B"; "C"] tieAC)
                                   lastClick))))%nat
    ∧ txt = "It's a tie!".
Proof.
  destruct (endGame_reports_winner_or_tie (gridConfig 2 3) ["A"; "B"; "C"]
              tieAC lastClick)
    as (txt & Hfx & _ & _ & Hcase).
  - discriminate.
  - vm_compute. reflexivity.
  - vm_compute. reflexivity.
  - exists txt. split; [exact Hfx|].
    destruct Hcase as [(w & name & Hw & _)|Htie]; [|exact Htie].
    vm_compute in Hw. discriminate Hw.
Defined.

(** C4, as stated, fails: what the winner computation reports does not
    determine the set of tied players.  The two games above end with the same
    writes to the page, but with different sets of tied players. *)
Lemma tied_players_not_reported :
  ¬ ∃ tied : list effect → list Z,
      ∀ cfg ps evs ev,
        ps ≠ [] →
        gameOver (run cfg ps evs) = false →
        gameOver (fst (step cfg (run cfg ps evs) ev)) = true →
        (1 < length (winners (fst (step cfg (run cfg ps evs) ev))))%nat →
        ∀ i, i ∈ tied (snd (step cfg (run cfg ps evs) ev))
             ↔ i ∈ winners (fst (step cfg (run cfg ps evs) ev)).
Proof.
  intros [tied Htied].
  pose proof (Htied (gridConfig 2 3) ["A"; "B"; "C"] tieAC lastClick) as HAC.
  pose proof (Htied (gridConfig 2 3) ["A"; "B"; "C"] tieBC lastClick) as HBC.
  assert (snd (step (gridConfig 2 3) (run (gridConfig 2 3) ["A"; "B"; "C"] tieAC)
                 lastClick)
          = snd (step (gridConfig 2 3) (run (gridConfig 2 3) ["A"; "B"; "C"] tieBC)
                   lastClick)) as Hsame by (vm_compute; reflexivity).
  rewrite Hsame in HAC.
  assert (winners (fst (step (gridConfig 2 3)
                          (run (gridConfig 2 3) ["A"; "B"; "C"] tieAC) lastClick))
          = [0; 2]) as HwAC by (vm_compute; reflexivity).
  assert (winners (fst (step (gridConfig 2 3)
                          (run (gridConfig 2 3) ["A"; "B"; "C"] tieBC) lastClick))
          = [1; 2]) as HwBC by (vm_compute; reflexivity).
  rewrite HwAC in HAC. rewrite HwBC in HBC.
  assert (0 ∈ [1; 2]) as Hin.
  { apply HBC; [discriminate|by vm_compute..|simpl; lia|].
    apply HAC; [discriminate|by vm_compute..|simpl; lia|]. by left. }
  apply elem_of_cons in Hin as [Hin|Hin]; [discriminate Hin|].
  apply elem_of_cons in Hin as [Hin|Hin]; [discriminate Hin|].
  by apply elem_of_nil in Hin.
Qed.

(** C5.  A rejected click (the game is over, the click is on no edge, or
    the edge is already drawn) changes nothing in the state and writes
    nothing to the page; a second click at the same place is always
    rejected, so that the set of drawn edges keeps its size; and a click
    that is not rejected draws its edge, so nothing is ever half done. *)
Theorem rejected_click_is_noop cfg x y st :
  (gameOver st = true
   ∨ findNearestEdge cfg st x y = None
   ∨ (∃ e, findNearestEdge cfg st x y = Some e ∧ edgeKey e ∈ edges st) →
   handleCanvasClick cfg x y st = (st, []))
  ∧ (let st1 := fst (handleCanvasClick cfg x y st) in
     handleCanvasClick cfg x y st1 = (st1, [])
     ∧ size (edges (fst (handleCanvasClick cfg x y st1))) = size (edges st1))
  ∧ (handleCanvasClick cfg x y st = (st, [])
     ∨ ∃ e, gameOver st = false ∧ findNearestEdge cfg st x y = Some e
            ∧ (edgeKey e ∉ edges st)
            ∧ edges (fst (handleCanvasClick cfg x y st))
              = {[edgeKey e]} ∪ edges st).
Proof.
  split; [apply handleCanvasClick_rejected|].
  assert (handleCanvasClick cfg x y (fst (handleCanvasClick cfg x y st))
          = (fst (handleCanvasClick cfg x y st), [])) as Hagain.
  { apply handleCanvasClick_rejected.
    destruct (handleCanvasClick_cases cfg x y st)
      as [[Hrej ->]|(e & Hg & He & _ & Hk & ->)]; [done|].
    destruct (gameOver (fst (accepted cfg e st))) eqn:Hg'; [by left|].
    right; right. exists e.
    destruct (accepted_frame cfg e st) as (_ & HE & _ & _ & Hoff).
    rewrite (findNearestEdge_offset cfg st _ x y Hoff), HE.
    split; [done|]. by apply elem_of_union_l, elem_of_singleton. }
  split; [simpl; by rewrite Hagain|].
  destruct (handleCanvasClick_cases cfg x y st)
    as [[_ ->]|(e & Hg & He & _ & Hk & ->)]; [by left|].
  right. exists e. destruct (accepted_frame cfg e st) as (_ & HE & _). done.
Qed.

Lemma rejected_click_is_noop_witness :
  handleCanvasClick (gridConfig 2 2) (30 # 1) (50 # 1)
    (run (gridConfig 2 2) ["A"; "B"] [Click (30 # 1) (50 # 1)])
  = (run (gridConfig 2 2) ["A"; "B"] [Click (30 # 1) (50 # 1)], []).
Proof.
  apply (proj1 (rejected_click_is_noop (gridConfig 2 2) (30 # 1) (50 # 1)
                  (run (gridConfig 2 2) ["A"; "B"] [Click (30 # 1) (50 # 1)]))).
  right; right. exists (hEdge 0 0). split; [reflexivity|].
  apply (bool_decide_unpack _). vm_compute. exact I.
Defined.

(** C6.  In every state of a game, the sum of the scores of all players is
    the number of entries of [boxes], and the score of each player is the
    number of entries of that player; after a reset there is no entry and
    every score is zero. *)
Theorem scores_sum_to_owned_boxes cfg ps evs :
  ps ≠ [] →
  let st := run cfg ps evs in
  totalScore st = Z.of_nat (size (boxes st))
  ∧ (∀ i, scoreOf st i = Z.of_nat (ownedBy st i))
  ∧ (let st0 := fst (resetGame st) in
     boxes st0 = ∅ ∧ totalScore st0 = 0 ∧ ∀ i, scoreOf st0 i = 0).
Proof.
  intros Hne st.
  destruct (scores_ok_run cfg ps evs Hne) as [_ Htot].
  split; [done|]. split; [by apply (owned_ok_run cfg ps evs)|].
  pose proof (scores_ok_run cfg ps (evs ++ [Restart]) Hne) as [_ Htot0].
  pose proof (owned_ok_run cfg ps (evs ++ [Restart]) Hne) as Hown0.
  rewrite run_snoc in Htot0, Hown0.
  change (step cfg (run cfg ps evs) Restart) with (resetGame st) in Htot0, Hown0.
  intros st0. fold st0 in Htot0, Hown0.
  assert (boxes st0 = ∅) as Hb0 by done.
  split; [done|]. split.
  - by rewrite Htot0, Hb0.
  - intros i. rewrite Hown0. unfold ownedBy.
    by rewrite Hb0, map_filter_empty, map_size_empty.
Qed.

Lemma scores_sum_to_owned_boxes_witness :
  totalScore (run (gridConfig 2 2) ["A"; "B"] game2x2)
  = Z.of_nat (size (boxes (run (gridConfig 2 2) ["A"; "B"] game2x2))).
Proof.
  refine (proj1 (scores_sum_to_owned_boxes (gridConfig 2 2) ["A"; "B"] game2x2 _)).
  discriminate.
Defined.

(** C7, as amended.  [initGame] checks neither the size of the grid nor the
    number of players: for every configuration and every list of players it
    returns, with a state in which nothing is drawn, nobody owns a box, the
    first player is to move and every player has score zero. *)
Theorem initGame_constructs_any_session cfg ps :
  ∃ st,
    initGame_completion cfg ps = Returns (st, [DrawBoard; UpdateUI])
    ∧ st = run cfg ps []
    ∧ players st = ps ∧ edges st = ∅ ∧ boxes st = ∅
    ∧ currentPlayer st = 0 ∧ gameOver st = false
    ∧ ∀ i, scores st !! i = if decide (i ∈ indices ps) then Some 0 else None.
Proof.
  exists (fst (initGame cfg (state0 ps))). split_and!; try done.
  intros i. simpl. rewrite foldl_zero_lookup. simpl.
  case_decide; [done|apply lookup_empty].
Qed.

(** C7, as stated, fails: a grid of one dot and a single player are accepted. *)
Lemma initGame_accepts_invalid_config :
  ¬ ∀ cfg ps,
      rows cfg < 2 ∨ cols cfg < 2 ∨ (length ps < 2)%nat →
      ∃ err, initGame_completion cfg ps = Throws err.
Proof.
  intros H. destruct (H (gridConfig 1 1) ["A"]) as [err Herr].
  - left. simpl. lia.
  - discriminate Herr.
Qed.

(** C8.  On a grid of at least two by two dots, the edges of the grid are
    the horizontal ones for [0 <= r < rows], [0 <= c < cols - 1] and the
    vertical ones for [0 <= r < rows - 1], [0 <= c < cols]; their keys are
    pairwise different; there are [(rows-1)*cols + rows*(cols-1)] of them,
    which is the number [isGameOver] compares the set of drawn edges with;
    a click only ever yields one of them, and, the cells being wider than
    thirty pixels, each of them is yielded by some click. *)
Theorem legal_edge_count cfg :
  2 ≤ rows cfg → 2 ≤ cols cfg →
  (∀ e, e ∈ legalEdges cfg ↔
        (∃ r c, 0 ≤ r < rows cfg ∧ 0 ≤ c < cols cfg - 1 ∧ e = hEdge r c)
        ∨ (∃ r c, 0 ≤ r < rows cfg - 1 ∧ 0 ≤ c < cols cfg ∧ e = vEdge r c))
  ∧ NoDup (edgeKey <$> legalEdges cfg)
  ∧ Z.of_nat (length (legalEdges cfg)) = totalPossibleEdges cfg
  ∧ Z.of_nat (size (legalKeys cfg)) = totalPossibleEdges cfg
  ∧ (∀ st, isGameOver cfg st
           = bool_decide (size (legalKeys cfg) ≤ size (edges st))%nat)
  ∧ (∀ st x y e, findNearestEdge cfg st x y = Some e → e ∈ legalEdges cfg)
  ∧ (30 < cellSize cfg → ∀ ps evs e, e ∈ legalEdges cfg →
       findNearestEdge cfg (run cfg ps evs)
         (fst (pointOn cfg e)) (snd (pointOn cfg e)) = Some e).
Proof.
  intros Hr Hc.
  pose proof (size_legalKeys cfg ltac:(lia) ltac:(lia)) as Hsize.
  split_and!.
  - intros e. unfold legalEdges. by rewrite elem_of_app, !elem_of_grid.
  - apply NoDup_legalKeys.
  - rewrite <- Hsize. unfold legalKeys.
    by rewrite size_list_to_set, length_fmap by apply NoDup_legalKeys.
  - done.
  - intros st. unfold isGameOver. rewrite <- Hsize.
    destruct (Z.leb_spec (Z.of_nat (size (legalKeys cfg)))
                (Z.of_nat (size (edges st)))).
    + rewrite bool_decide_eq_true_2; [done|lia].
    + rewrite bool_decide_eq_false_2; [done|lia].
  - intros st x y e He. by eapply elem_of_legalEdges, findNearestEdge_legal.
  - intros Hcs ps evs e He%elem_of_legalEdges.
    apply findNearestEdge_pointOn; [done..|]. apply run_boardOffset.
Qed.

Lemma legal_edge_count_witness :
  Z.of_nat (size (legalKeys defaultConfig)) = 38
  ∧ findNearestEdge defaultConfig (run defaultConfig ["A"; "B"] [])
      (fst (pointOn defaultConfig (vEdge 2 5)))
      (snd (pointOn defaultConfig (vEdge 2 5))) = Some (vEdge 2 5).
Proof.
  destruct (legal_edge_count defaultConfig) as (Hin & _ & _ & Hsize & _ & _ & Hpt).
  - simpl. lia.
  - simpl. lia.
  - split; [exact Hsize|]. apply Hpt; [simpl; lia|].
    apply Hin. right. exists 2, 5. simpl. split_and!; lia || done.
Defined.

(** C9.  After any sequence of events, [resetGame] leaves the state that
    [initGame] builds when the page loads: all fields of [state] are equal. *)
Theorem reset_restores_initial_state cfg ps evs :
  ps ≠ [] →
  fst (resetGame (run cfg ps evs)) = fst (initGame cfg (state0 ps))
  ∧ fst (initGame cfg (state0 ps)) = run cfg ps [].
Proof.
  intros Hne. split; [|done].
  destruct (layout_ok_run cfg ps evs) as (Hp & Hc & Hb).
  destruct (scores_ok_run cfg ps evs Hne) as [(_ & _ & Hdom & _) _].
  apply state_eq; simpl; try done.
  apply map_eq. intros i. rewrite !foldl_zero_lookup, Hp. simpl.
  case_decide as Hi; [done|]. rewrite lookup_empty.
  apply eq_None_not_Some. by rewrite Hdom.
Qed.

Lemma reset_restores_initial_state_witness :
  fst (resetGame (run (gridConfig 2 2) ["A"; "B"] game2x2))
  = fst (initGame (gridConfig 2 2) (state0 ["A"; "B"])).
Proof.
  refine (proj1 (reset_restores_initial_state (gridConfig 2 2) ["A"; "B"] game2x2 _)).
  discriminate.
Defined.

(** C10.  A mouse move changes no field of the state other than
    [highlightedEdge]. *)
Theorem mouse_move_only_changes_highlight cfg x y st :
  let st' := fst (handleMouseMove cfg x y st) in
  st' = set_highlightedEdge (highlightedEdge st') st
  ∧ edges st' = edges st ∧ boxes st' = boxes st ∧ scores st' = scores st
  ∧ currentPlayer st' = currentPlayer st ∧ gameOver st' = gameOver st
  ∧ players st' = players st.
Proof.
  unfold handleMouseMove. destruct st as [ps cur sc E B h g cs bo].
  destruct g; simpl; [done|]. by repeat case_match.
Qed.

(** ** The scenarios of the specification *)

Example run_demo :
  let st := run defaultConfig ["A"; "B"]
              [Click (30 # 1) (50 # 1); Click (20 # 1) (80 # 1)] in
  (size (edges st), currentPlayer st, gameOver st) = (2%nat, 0, false).
Proof. vm_compute. reflexivity. Qed.

(** One box: after three sides no box is owned; the fourth side gives the
    box to the player who draws it and ends the game, one to nothing. *)
Example single_box_game :
  let cfg := gridConfig 2 2 in
  let st3 := run cfg ["A"; "B"] (take 3 game2x2) in
  let st4 := run cfg ["A"; "B"] game2x2 in
  boxes st3 = ∅ ∧ gameOver st3 = false
  ∧ boxes st4 = {[ "0,0" := 1 ]} ∧ gameOver st4 = true
  ∧ (scoreOf st4 0, scoreOf st4 1) = (0, 1)
  ∧ snd (step cfg st3 (clickOn cfg (vEdge 0 1)))
    = [SetWinnerText "Player B wins with 1 points!"; SetGameOverDisplay "flex"].
Proof. vm_compute. repeat split. Qed.

(** Two boxes, one for each of two players: the dialog reports a tie. *)
Example two_player_tie :
  let cfg := gridConfig 2 3 in
  let evs := clickOn cfg <$>
               [hEdge 0 0; hEdge 1 0; vEdge 0 0; hEdge 0 1; vEdge 0 1; hEdge 1 1] in
  let st := run cfg ["A"; "B"] evs in
  let last := step cfg st (clickOn cfg (vEdge 0 2)) in
  gameOver (fst last) = true
  ∧ (scoreOf (fst last) 0, scoreOf (fst last) 1) = (1, 1)
  ∧ winners (fst last) = [0; 1]
  ∧ snd last = [SetWinnerText "It's a tie!"; SetGameOverDisplay "flex"].
Proof. vm_compute. repeat split. Qed.

(** On a row of dots no box exists: the only edge can be drawn, and the
    game is never over although every edge is drawn. *)
Example single_row_never_ends :
  let cfg := gridConfig 1 2 in
  let st := run cfg ["A"] [clickOn cfg (hEdge 0 0)] in
  edges st = {[ "0,0:0,1" ]} ∧ totalPossibleEdges cfg = 1 ∧ gameOver st = false.
Proof. vm_compute. repeat split. Qed.

(** * Further properties *)

(** ** Rounding *)





(** ** The hit test *)







(** ** The canvas *)

Lemma run_canvasSize cfg ps evs :
  canvasSize (run cfg ps evs)
  = (cols cfg * cellSize cfg + margin cfg * 2,
     rows cfg * cellSize cfg + margin cfg * 2 + gridPaddingTop cfg).
Proof. by destruct (layout_ok_run cfg ps evs) as (_ & -> & _). Qed.

(** X3.  In every state of a game, with cells wider than thirty pixels and
    a margin and a top padding that are not negative, the canvas sized by
    [setupCanvas] holds the whole grid: every dot is at least a margin away
    from the left and the top border and at least a margin and a cell away
    from the right and the bottom border; every edge of the grid is
    selected by a pointer position that lies on the canvas; and a resize of
    the window computes the same layout again, so it changes nothing in the
    state. *)
Theorem grid_fits_on_canvas cfg ps evs :
  30 < cellSize cfg → 0 ≤ margin cfg → 0 ≤ gridPaddingTop cfg →
  let st := run cfg ps evs in
  (∀ r c, 0 ≤ r < rows cfg → 0 ≤ c < cols cfg →
     margin cfg ≤ fst (dotAt cfg st r c)
     ∧ fst (dotAt cfg st r c) + cellSize cfg + margin cfg ≤ fst (canvasSize st)
     ∧ margin cfg + gridPaddingTop cfg ≤ snd (dotAt cfg st r c)
     ∧ snd (dotAt cfg st r c) + cellSize cfg + margin cfg ≤ snd (canvasSize st))
  ∧ (∀ e, e ∈ legalEdges cfg →
       inCanvas st (pointOn cfg e)
       ∧ findNearestEdge cfg st (fst (pointOn cfg e)) (snd (pointOn cfg e)) = Some e)
  ∧ step cfg st Resize = (st, [DrawBoard]).
Proof.
  intros Hcs Hm Hp st.
  pose proof (run_canvasSize cfg ps evs) as Hsize.
  pose proof (run_boardOffset cfg ps evs) as Hoff. fold st in Hsize, Hoff.
  split_and!.
  - intros r c Hr Hc. unfold dotAt. rewrite Hsize, Hoff. simpl. nia.
  - intros e He%elem_of_legalEdges. split; [|by apply findNearestEdge_pointOn].
    unfold inCanvas. rewrite Hsize. simpl.
    destruct e as [r c r' c' h]. unfold legal in He. simpl in He.
    unfold pointOn. simpl.
    destruct He as [(-> & ? & ? & _)|(-> & ? & ? & _)]; simpl;
      rewrite <- !(Zle_Qle 0), <- !Zlt_Qlt; nia.
  - unfold step. f_equal. destruct (layout_ok_run cfg ps evs) as (_ & Hc & Hb).
    apply state_eq; done.
Qed.

Lemma grid_fits_on_canvas_witness :
  inCanvas (run defaultConfig ["A"; "B"] []) (pointOn defaultConfig (hEdge 3 4)).
Proof.
  refine (proj1 (proj1 (proj2 (grid_fits_on_canvas defaultConfig ["A"; "B"] [] _ _ _))
                   (hEdge 3 4) _)).
  - simpl. lia.
  - simpl. lia.
  - simpl. lia.
  - apply elem_of_legalEdges. left. simpl. split_and!; lia || done.
Defined.

(** ** Hovering *)

(** X4.  After a mouse move in a running game the highlighted edge, if there
    is one, is the edge of the grid under the pointer and is not drawn; a
    pointer on a drawn edge or on no edge clears the highlight.  In a
    finished game a mouse move changes nothing and draws nothing. *)
Theorem mouse_move_highlights_free_edges cfg x y st :
  let st' := fst (handleMouseMove cfg x y st) in
  (gameOver st = false →
     (∀ e, highlightedEdge st' = Some e →
           findNearestEdge cfg st x y = Some e ∧ e ∈ legalEdges cfg
           ∧ edgeKey e ∉ edges st')
     ∧ (highlightedEdge st' = None ↔
        findNearestEdge cfg st x y = None
        ∨ ∃ e, findNearestEdge cfg st x y = Some e ∧ edgeKey e ∈ edges st)
     ∧ snd (handleMouseMove cfg x y st) = [DrawBoard])
  ∧ (gameOver st = true → handleMouseMove cfg x y st = (st, [])).
Proof.
  unfold handleMouseMove. split; intros ->; [|done].
  destruct (findNearestEdge cfg st x y) as [e|] eqn:He; simpl.
  - pose proof (findNearestEdge_legal _ _ _ _ _ He) as Hleg.
    destruct (has (edgeKey e) st) eqn:Hh; simpl.
    + apply has_true in Hh. split_and!; [done| |done].
      split; [eauto|done].
    + apply not_true_iff_false in Hh. rewrite has_true in Hh. split_and!.
      * intros e' [= <-]. split_and!; [done| |done]. by apply elem_of_legalEdges.
      * split; [done|]. intros [|(e' & [= <-] & ?)]; done.
      * done.
  - split_and!; [done| |done]. split; [by left|done].
Qed.

Lemma mouse_move_highlights_free_edges_witness :
  highlightedEdge
    (fst (handleMouseMove (gridConfig 2 2) (30 # 1) (50 # 1)
            (run (gridConfig 2 2) ["A"; "B"] [Click (30 # 1) (50 # 1)]))) = None.
Proof.
  pose proof (mouse_move_highlights_free_edges (gridConfig 2 2) (30 # 1) (50 # 1)
                (run (gridConfig 2 2) ["A"; "B"] [Click (30 # 1) (50 # 1)])) as [H _].
  destruct (H eq_refl) as (_ & Hnone & _). apply Hnone.
  right. exists (hEdge 0 0). split; [reflexivity|].
  apply (bool_decide_unpack _). vm_compute. exact I.
Defined.

(** ** Restarting *)

Lemma run_app cfg ps evs evs' :
  run cfg ps (evs ++ evs')
  = foldl (λ st ev, fst (step cfg st ev)) (run cfg ps evs) evs'.
Proof. unfold run. by rewrite foldl_app. Qed.

Lemma resetGame_run cfg ps evs :
  ps ≠ [] → fst (resetGame (run cfg ps evs)) = run cfg ps [].
Proof.
  intros Hne.
  destruct (layout_ok_run cfg ps evs) as (Hp & Hc & Hb).
  destruct (scores_ok_run cfg ps evs Hne) as [(_ & _ & Hdom & _) _].
  apply state_eq; simpl; try done.
  apply map_eq. intros i. rewrite !foldl_zero_lookup, Hp. simpl.
  case_decide as Hi; [done|]. rewrite lookup_empty.
  apply eq_None_not_Some. by rewrite Hdom.
Qed.

Lemma setupCanvas_run cfg ps evs :
  setupCanvas cfg (run cfg ps evs) = run cfg ps evs.
Proof.
  destruct (layout_ok_run cfg ps evs) as (_ & Hc & Hb).
  apply state_eq; done.
Qed.

(** X5.  A restart begins a new game: whatever was played before it, the
    events after a restart lead to the state they lead to from a freshly
    loaded page. *)
Theorem restart_begins_a_new_game cfg ps evs evs' :
  ps ≠ [] →
  run cfg ps (evs ++ Restart :: evs') = run cfg ps evs'.
Proof.
  intros Hne. rewrite (run_app cfg ps evs (Restart :: evs')).
  change (foldl (λ st ev, fst (step cfg st ev)) (run cfg ps evs) (Restart :: evs'))
    with (foldl (λ st ev, fst (step cfg st ev))
            (fst (resetGame (run cfg ps evs))) evs').
  rewrite (resetGame_run cfg ps evs Hne).
  by rewrite <- (run_app cfg ps [] evs').
Qed.

Lemma restart_begins_a_new_game_witness :
  run (gridConfig 2 2) ["A"; "B"] (game2x2 ++ Restart :: take 3 game2x2)
  = run (gridConfig 2 2) ["A"; "B"] (take 3 game2x2).
Proof.
  apply (restart_begins_a_new_game (gridConfig 2 2) ["A"; "B"] game2x2
           (take 3 game2x2)).
  discriminate.
Defined.

(** ** A finished game *)

Lemma step_finished cfg ps evs ev :
  gameOver (run cfg ps evs) = true → ev ≠ Restart →
  fst (step cfg (run cfg ps evs) ev) = run cfg ps evs.
Proof.
  intros Hg Hev. destruct ev as [x y|x y| |]; simpl.
  - unfold handleCanvasClick. by rewrite Hg.
  - unfold handleMouseMove. by rewrite Hg.
  - done.
  - apply setupCanvas_run.
Qed.

(** X6.  A finished game is frozen until it is restarted: clicks and mouse
    moves are ignored without any write to the page, a resize only redraws,
    and every sequence of events without a restart leaves the state as it
    is. *)
Theorem finished_game_ignores_events cfg ps evs :
  let st := run cfg ps evs in
  gameOver st = true →
  (∀ x y, step cfg st (Click x y) = (st, []))
  ∧ (∀ x y, step cfg st (MouseMove x y) = (st, []))
  ∧ step cfg st Resize = (st, [DrawBoard])
  ∧ (∀ evs', Restart ∉ evs' → run cfg ps (evs ++ evs') = st).
Proof.
  intros st Hg. split_and!.
  - intros x y. simpl. unfold handleCanvasClick. by rewrite Hg.
  - intros x y. simpl. unfold handleMouseMove. by rewrite Hg.
  - subst st. unfold step. by rewrite (setupCanvas_run cfg ps evs).
  - intros evs'. induction evs' as [|ev evs' IH] using rev_ind; intros Hno.
    + by rewrite app_nil_r.
    + rewrite app_assoc, run_snoc.
      assert (run cfg ps (evs ++ evs') = st) as Heq.
      { apply IH. intros Hin. apply Hno, elem_of_app. by left. }
      rewrite <- Heq in Hg. rewrite (step_finished cfg ps (evs ++ evs') ev Hg); [done|].
      intros ->. apply Hno, elem_of_app. right. by left.
Qed.

Lemma finished_game_ignores_events_witness :
  step (gridConfig 2 2) (run (gridConfig 2 2) ["A"; "B"] game2x2) (Click (30 # 1) (50 # 1))
  = (run (gridConfig 2 2) ["A"; "B"] game2x2, []).
Proof.
  refine (proj1 (finished_game_ignores_events (gridConfig 2 2) ["A"; "B"] game2x2 _)
            (30 # 1) (50 # 1)).
  vm_compute. reflexivity.
Defined.

(** ** The set of drawn edges *)

Lemma step_edges cfg st ev :
  ev ≠ Restart →
  edges st ⊆ edges (fst (step cfg st ev))
  ∧ (size (edges (fst (step cfg st ev))) ≤ size (edges st) + 1)%nat.
Proof.
  intros Hev. destruct ev as [x y|x y| |]; simpl;
    [| |done|split; [reflexivity|lia]].
  - destruct (handleCanvasClick_cases cfg x y st)
      as [[_ ->]|(e & _ & _ & _ & Hk & ->)]; [simpl; split; [reflexivity|lia]|].
    destruct (accepted_frame cfg e st) as (_ & -> & _). split.
    + apply union_subseteq_r.
    + rewrite size_union by (by apply disjoint_singleton_l).
      rewrite size_singleton. lia.
  - unfold handleMouseMove. destruct (gameOver st); simpl; [split; [reflexivity|lia]|].
    repeat case_match; simpl; split; reflexivity || lia.
Qed.

(** X7.  In every state of a game each drawn key is the key of an edge of
    the grid.  An event other than a restart removes no drawn edge and adds
    at most one, and an accepted click adds exactly one; so the set of drawn
    edges only grows for as long as the game is not restarted. *)
Theorem drawn_edges_are_legal_and_grow cfg ps evs :
  let st := run cfg ps evs in
  (∀ k, k ∈ edges st → ∃ e, e ∈ legalEdges cfg ∧ k = edgeKey e)
  ∧ (∀ ev, ev ≠ Restart →
       edges st ⊆ edges (fst (step cfg st ev))
       ∧ (size (edges (fst (step cfg st ev))) ≤ size (edges st) + 1)%nat)
  ∧ (∀ x y e, gameOver st = false → findNearestEdge cfg st x y = Some e →
       edgeKey e ∉ edges st →
       size (edges (fst (step cfg st (Click x y)))) = S (size (edges st)))
  ∧ (∀ evs', Restart ∉ evs' → edges st ⊆ edges (run cfg ps (evs ++ evs'))).
Proof.
  intros st. destruct (board_ok_run cfg ps evs) as [HE _]. fold st in HE.
  split_and!.
  - intros k Hk%HE. apply elem_of_legalKeys in Hk as (e & He & ->).
    exists e. split; [by apply elem_of_legalEdges|done].
  - intros ev. apply step_edges.
  - intros x y e Hg He Hk. simpl.
    rewrite (handleCanvasClick_accepted cfg x y st e) by done.
    destruct (accepted_frame cfg e st) as (_ & -> & _).
    rewrite size_union by (by apply disjoint_singleton_l).
    by rewrite size_singleton.
  - intros evs'. induction evs' as [|ev evs' IH] using rev_ind; intros Hno.
    + by rewrite app_nil_r.
    + rewrite app_assoc, run_snoc. etrans.
      * apply IH. intros Hin. apply Hno, elem_of_app. by left.
      * apply step_edges. intros ->. apply Hno, elem_of_app. right. by left.
Qed.

Lemma drawn_edges_are_legal_and_grow_witness :
  size (edges (fst (step (gridConfig 2 2) (run (gridConfig 2 2) ["A"; "B"] [])
                     (Click (30 # 1) (50 # 1)))))
  = S (size (edges (run (gridConfig 2 2) ["A"; "B"] []))).
Proof.
  destruct (drawn_edges_are_legal_and_grow (gridConfig 2 2) ["A"; "B"] [])
    as (_ & _ & Hone & _).
  apply (Hone (30 # 1) (50 # 1) (hEdge 0 0)).
  - reflexivity.
  - vm_compute. reflexivity.
  - apply (bool_decide_unpack _). vm_compute. exact I.
Defined.

(** ** Scoring a move *)

Lemma foldl_award_scoreOf st cb i :
  scoreOf (foldl award st cb) i
  = if decide (i = currentPlayer st) then scoreOf st i + Z.of_nat (length cb)
    else scoreOf st i.
Proof.
  revert st. induction cb as [|b cb IH]; intros st.
  - simpl. case_decide; lia.
  - change (foldl award st (b :: cb)) with (foldl award (award st b) cb).
    rewrite IH, award_scoreOf. change (currentPlayer (award st b)) with (currentPlayer st).
    simpl length. case_decide; lia.
Qed.

Lemma length_adjacentCells cfg e : (length (adjacentCells cfg e) ≤ 2)%nat.
Proof. unfold adjacentCells. repeat case_match; simpl; lia. Qed.

Lemma length_completedBy cfg e st : (length (completedBy cfg e st) ≤ 2)%nat.
Proof.
  unfold completedBy. etrans; [apply length_filter|apply length_adjacentCells].
Qed.

(** X8.  Only the mover scores.  An accepted click completes no, one or two
    boxes; the score of the player who clicked grows by that number, the
    score of every other player stays as it is, and [boxes] gains that many
    entries. *)
Theorem only_the_mover_scores cfg ps evs x y e :
  ps ≠ [] →
  let st := run cfg ps evs in
  gameOver st = false → findNearestEdge cfg st x y = Some e →
  edgeKey e ∉ edges st →
  let st' := fst (handleCanvasClick cfg x y st) in
  let n := Z.of_nat (length (checkForCompletedBoxes cfg
                               (set_edges ({[edgeKey e]} ∪ edges st) st) e)) in
  0 ≤ n ≤ 2
  ∧ scoreOf st' (currentPlayer st) = scoreOf st (currentPlayer st) + n
  ∧ (∀ i, i ≠ currentPlayer st → scoreOf st' i = scoreOf st i)
  ∧ Z.of_nat (size (boxes st')) = Z.of_nat (size (boxes st)) + n.
Proof.
  intros Hne st Hg He Hk st' n.
  pose proof (findNearestEdge_legal _ _ _ _ _ He) as Hleg.
  pose proof (board_ok_run cfg ps evs) as Hok. fold st in Hok.
  assert (n = Z.of_nat (length (completedBy cfg e st))) as Hn.
  { unfold n. rewrite checkForCompletedBoxes_filter;
      [done|done|by apply elem_of_union_l, elem_of_singleton]. }
  assert (st' = fst (accepted cfg e st)) as Hst'.
  { unfold st'. by rewrite (handleCanvasClick_accepted cfg x y st e). }
  assert (∀ i, scoreOf st' i
               = if decide (i = currentPlayer st)
                 then scoreOf st i + n else scoreOf st i) as Hscore.
  { intros i. rewrite Hst', Hn. unfold scoreOf at 1. rewrite accepted_scores.
    apply (foldl_award_scoreOf (set_edges ({[edgeKey e]} ∪ edges st) st)). }
  pose proof (length_completedBy cfg e st) as Hlen.
  split_and!.
  - lia.
  - lia.
  - by rewrite Hscore, decide_True.
  - intros i Hi. by rewrite Hscore, decide_False.
  - rewrite Hst', Hn, accepted_boxes, foldl_award_size.
    + simpl. lia.
    + apply NoDup_completedBy_keys.
    + intros b Hb. simpl. by apply (completedBy_not_owned cfg e).
Qed.

Lemma only_the_mover_scores_witness :
  scoreOf (fst (handleCanvasClick (gridConfig 2 2) (20 # 1) (80 # 1)
                  (run (gridConfig 2 2) ["A"; "B"] [Click (30 # 1) (50 # 1)]))) 0
  = scoreOf (run (gridConfig 2 2) ["A"; "B"] [Click (30 # 1) (50 # 1)]) 0.
Proof.
  refine (proj1 (proj2 (proj2
    (only_the_mover_scores (gridConfig 2 2) ["A"; "B"] [Click (30 # 1) (50 # 1)]
       (20 # 1) (80 # 1) (vEdge 0 0) _ _ _ _))) 0 _).
  - discriminate.
  - reflexivity.
  - vm_compute. reflexivity.
  - apply (bool_decide_unpack _). vm_compute. exact I.
  - vm_compute. discriminate.
Defined.

(** ** Owners *)

Lemma owners_valid_run cfg ps evs k p :
  ps ≠ [] → boxes (run cfg ps evs) !! k = Some p →
  0 ≤ p < Z.of_nat (length ps).
Proof.
  intros Hne. revert k p.
  cut (board_ok cfg (run cfg ps evs) ∧ scores_ok ps (run cfg ps evs)
       ∧ ∀ k p, boxes (run cfg ps evs) !! k = Some p →
                0 ≤ p < Z.of_nat (length ps)); [tauto|].
  apply run_ind.
  - split; [by apply board_ok_cleared|]. split; [by apply (scores_ok_run cfg ps [])|].
    intros k p Hk. simpl in Hk. by rewrite lookup_empty in Hk.
  - intros st ev (Hok & Hsc & Hown).
    split; [by apply board_ok_step|]. split; [by apply scores_ok_step|].
    intros k p. destruct ev as [x y|x y| |]; simpl.
    + destruct (handleCanvasClick_cases cfg x y st)
        as [[_ ->]|(e & _ & _ & _ & _ & ->)]; [apply Hown|].
      rewrite accepted_boxes, foldl_award_boxes. simpl.
      case_decide; [|apply Hown]. intros [= <-]. apply Hsc.
    + unfold handleMouseMove. destruct (gameOver st); [apply Hown|].
      repeat case_match; apply Hown.
    + intros Hk. by rewrite lookup_empty in Hk.
    + apply Hown.
Qed.

(** X9.  In every state of a game the owner recorded for a box is the index
    of a player, so the name that [drawBoard] writes into the box and the
    colour it takes are defined; and an entry that a click adds to [boxes]
    has the player who clicked as its owner. *)
Theorem owners_are_players cfg ps evs :
  ps ≠ [] →
  let st := run cfg ps evs in
  (∀ k p, boxes st !! k = Some p →
     0 ≤ p < Z.of_nat (length ps)
     ∧ is_Some (players st !! Z.to_nat p)
     ∧ is_Some (playerColor p))
  ∧ (∀ x y k p, boxes st !! k = None →
       boxes (fst (handleCanvasClick cfg x y st)) !! k = Some p →
       p = currentPlayer st).
Proof.
  intros Hne st. split.
  - intros k p Hk. pose proof (owners_valid_run cfg ps evs k p Hne Hk) as Hp.
    destruct (layout_ok_run cfg ps evs) as (Hps & _). fold st in Hps.
    split_and!; [lia..| |].
    + rewrite Hps. apply lookup_lt_is_Some_2. lia.
    + unfold playerColor.
      pose proof (Z.rem_bound_pos p (Z.of_nat (length colors_players))
                    ltac:(lia) ltac:(simpl; lia)) as Hrem.
      destruct (Z.ltb_spec (Z.rem p (Z.of_nat (length colors_players))) 0); [lia|].
      apply lookup_lt_is_Some_2. lia.
  - intros x y k p Hnone.
    destruct (handleCanvasClick_cases cfg x y st)
      as [[_ ->]|(e & _ & _ & _ & _ & ->)]; [simpl; congruence|].
    rewrite accepted_boxes, foldl_award_boxes. simpl.
    case_decide; [|congruence]. by intros [= <-].
Qed.

Lemma owners_are_players_witness :
  0 ≤ 1 < Z.of_nat (length ["A"; "B"])
  ∧ is_Some (players (run (gridConfig 2 2) ["A"; "B"] game2x2) !! Z.to_nat 1)
  ∧ is_Some (playerColor 1).
Proof.
  refine (proj1 (owners_are_players (gridConfig 2 2) ["A"; "B"] game2x2 _) "0,0" 1 _).
  - discriminate.
  - vm_compute. reflexivity.
Defined.

(** ** The last box *)

Lemma elem_of_cells cfg b : b ∈ cells cfg ↔ inGrid cfg b.
Proof.
  unfold cells, inGrid. rewrite elem_of_grid. destruct b as [r c]; simpl. split.
  - intros (r' & c' & ? & ? & [= -> ->]). done.
  - intros [? ?]. exists r, c. done.
Qed.

Lemma NoDup_cells_keys cfg : NoDup (boxKeyOf <$> cells cfg).
Proof.
  apply NoDup_fmap_2; [apply _|]. apply NoDup_grid.
  intros r c r' c' [= -> ->]. done.
Qed.

Lemma size_cells_keys cfg :
  1 ≤ rows cfg → 1 ≤ cols cfg →
  Z.of_nat (size (list_to_set (boxKeyOf <$> cells cfg) : gset string))
  = (rows cfg - 1) * (cols cfg - 1).
Proof.
  intros Hr Hc. rewrite size_list_to_set by apply NoDup_cells_keys.
  rewrite length_fmap. unfold cells. rewrite length_grid.
  rewrite Nat2Z.inj_mul, !Z2Nat.id by lia. done.
Qed.

Lemma board_ok_dom cfg st :
  board_ok cfg st →
  dom (boxes st) ⊆ (list_to_set (boxKeyOf <$> cells cfg) : gset string).
Proof.
  intros [_ HB] k (b & Hb & _ & ->)%HB.
  apply elem_of_list_to_set, list_elem_of_fmap_2. by apply elem_of_cells.
Qed.

Lemma complete_legalKeys cfg b : inGrid cfg b → complete (legalKeys cfg) b.
Proof.
  intros Hb. apply Forall_forall. intros e He. apply elem_of_legalKeys.
  exists e. split; [|done]. by apply cellBounds_legal with b.
Qed.

(** On a grid of at least two by two dots every edge is a side of a box. *)
Lemma legal_edge_in_complete_box cfg E e :
  2 ≤ rows cfg → 2 ≤ cols cfg → legal cfg e →
  (∀ b, inGrid cfg b → complete E b) → edgeKey e ∈ E.
Proof.
  intros Hr Hc He Hall.
  destruct (adjacentCells cfg e) as [|b l] eqn:Hadj.
  { by apply adjacentCells_nonempty in Hadj. }
  assert (b ∈ adjacentCells cfg e) as Hb by (rewrite Hadj; by left).
  assert (inGrid cfg b) as Hg by eauto using adjacentCells_inGrid.
  apply adjacentCells_bounds in Hb; [|done..].
  apply list_elem_of_fmap in Hb as (e' & -> & He').
  apply complete_has with b; auto.
Qed.

Lemma score_total_bounds cfg ps evs :
  2 ≤ rows cfg → 2 ≤ cols cfg → ps ≠ [] →
  let st := run cfg ps evs in
  totalScore st ≤ (rows cfg - 1) * (cols cfg - 1)
  ∧ (gameOver st = true ↔ totalScore st = (rows cfg - 1) * (cols cfg - 1))
  ∧ (gameOver st = true → ∀ b, inGrid cfg b → is_Some (boxes st !! boxKeyOf b)).
Proof.
  intros Hr Hc Hne st.
  pose proof (board_ok_run cfg ps evs) as Hok. fold st in Hok.
  pose proof (over_ok_run cfg ps evs Hr Hc) as Hov. fold st in Hov.
  destruct (scores_ok_run cfg ps evs Hne) as [_ Htot]. fold st in Htot.
  pose proof (board_ok_dom cfg st Hok) as Hdom.
  pose proof (size_cells_keys cfg ltac:(lia) ltac:(lia)) as HK.
  pose proof (size_legalKeys cfg ltac:(lia) ltac:(lia)) as HL.
  pose proof (subseteq_size _ _ Hdom) as Hle.
  rewrite size_dom in Hle.
  destruct Hok as [HE HB].
  pose proof (subseteq_size _ _ HE) as HleE.
  assert (gameOver st = true → ∀ b, inGrid cfg b → is_Some (boxes st !! boxKeyOf b))
    as Hall.
  { intros Hg%Hov b Hb. apply elem_of_dom, HB. exists b. split_and!; [done| |done].
    assert (edges st = legalKeys cfg) as -> by (apply set_subseteq_size_eq; [done|lia]).
    by apply complete_legalKeys. }
  split_and!; [lia| |done]. split.
  - intros Hg. specialize (Hall Hg).
    assert (dom (boxes st) = list_to_set (boxKeyOf <$> cells cfg)) as Heq.
    { apply set_eq. intros k. split; [apply Hdom|].
      intros (b & -> & Hb%elem_of_cells)%elem_of_list_to_set%list_elem_of_fmap.
      by apply elem_of_dom, Hall. }
    rewrite Htot, <- (size_dom (D:=gset string)), Heq. done.
  - intros Hfull. apply Hov.
    assert (dom (boxes st) = list_to_set (boxKeyOf <$> cells cfg)) as Heq.
    { apply set_subseteq_size_eq; [done|]. rewrite size_dom. lia. }
    assert (legalKeys cfg ⊆ edges st) as Hsub.
    { intros k (e & He & ->)%elem_of_legalKeys.
      apply (legal_edge_in_complete_box cfg); [done..|].
      intros b Hb.
      assert (boxKeyOf b ∈ dom (boxes st)) as Hin.
      { rewrite Heq. apply elem_of_list_to_set, list_elem_of_fmap_2.
        by apply elem_of_cells. }
      apply HB in Hin as (b' & _ & Hcomp & ->%(inj boxKeyOf)). done. }
    pose proof (subseteq_size _ _ Hsub). lia.
Qed.

(** X10.  On a grid of at least two by two dots, the scores never add up to
    more than the number of boxes of the grid, [(rows-1)*(cols-1)]; the game
    is over exactly when they add up to that number; and in a finished game
    every box of the grid has an owner. *)
Theorem game_is_over_when_every_box_is_owned cfg ps evs :
  2 ≤ rows cfg → 2 ≤ cols cfg → ps ≠ [] →
  let st := run cfg ps evs in
  totalScore st ≤ (rows cfg - 1) * (cols cfg - 1)
  ∧ (gameOver st = true ↔ totalScore st = (rows cfg - 1) * (cols cfg - 1))
  ∧ (gameOver st = true → ∀ b, inGrid cfg b → is_Some (boxes st !! boxKeyOf b)).
Proof. apply score_total_bounds. Qed.

Lemma game_is_over_when_every_box_is_owned_witness :
  gameOver (run (gridConfig 2 2) ["A"; "B"] game2x2) = true
  ↔ totalScore (run (gridConfig 2 2) ["A"; "B"] game2x2) = (2 - 1) * (2 - 1).
Proof.
  refine (proj1 (proj2
    (game_is_over_when_every_box_is_owned (gridConfig 2 2) ["A"; "B"] game2x2 _ _ _))).
  - simpl. lia.
  - simpl. lia.
  - discriminate.
Defined.

(** ** Writes to the page *)

Lemma accepted_continues cfg e st :
  gameOver st = false → gameOver (fst (accepted cfg e st)) = false →
  snd (accepted cfg e st) = [DrawBoard; UpdateUI].
Proof.
  intros Hg. unfold accepted. simpl. case_decide as Hcb; simpl; [done|].
  case_match; simpl; done.
Qed.

(** What an event writes, by the change of [gameOver]. *)
Lemma step_effects cfg st ev :
  (gameOver st = false ∧ gameOver (fst (step cfg st ev)) = true
   ∧ snd (step cfg st ev)
     = [SetWinnerText (winnerMessage (fst (step cfg st ev)));
        SetGameOverDisplay "flex"])
  ∨ (gameOver (fst (step cfg st ev)) = gameOver st
     ∧ (snd (step cfg st ev) = [] ∨ snd (step cfg st ev) = [DrawBoard]
        ∨ (gameOver st = false ∧ snd (step cfg st ev) = [DrawBoard; UpdateUI])))
  ∨ (ev = Restart ∧ gameOver (fst (step cfg st ev)) = false
     ∧ snd (step cfg st ev) = [SetGameOverDisplay "none"; DrawBoard; UpdateUI]).
Proof.
  destruct ev as [x y|x y| |]; simpl.
  - destruct (handleCanvasClick_cases cfg x y st)
      as [[_ ->]|(e & Hg & _ & _ & _ & ->)]; [right; left; split; [done|by left]|].
    destruct (gameOver (fst (accepted cfg e st))) eqn:Hg'.
    + left. split_and!; [done..|]. by apply accepted_ends.
    + right; left. split; [congruence|]. right; right. split; [done|].
      by apply accepted_continues.
  - right; left. unfold handleMouseMove. destruct (gameOver st) eqn:Hg; simpl.
    + rewrite Hg. split; [done|by left].
    + split; [by repeat case_match|right; by left].
  - right; right. done.
  - right; left. split; [done|right; by left].
Qed.

(** X11.  The scoreboard is only ever updated while the game is running:
    whenever handling an event calls [updateUI], [gameOver] is false
    afterwards.  The click that ends the game writes the winner text and
    shows the dialog, and neither redraws the board nor updates the
    scoreboard; every other accepted click does both, once. *)
Theorem scoreboard_updates_only_during_play cfg st ev :
  (UpdateUI ∈ snd (step cfg st ev) → gameOver (fst (step cfg st ev)) = false)
  ∧ (gameOver st = false → gameOver (fst (step cfg st ev)) = true →
     (DrawBoard ∉ snd (step cfg st ev)) ∧ (UpdateUI ∉ snd (step cfg st ev))
     ∧ SetGameOverDisplay "flex" ∈ snd (step cfg st ev))
  ∧ (∀ x y e, ev = Click x y → gameOver st = false →
       findNearestEdge cfg st x y = Some e → edgeKey e ∉ edges st →
       gameOver (fst (step cfg st ev)) = false →
       snd (step cfg st ev) = [DrawBoard; UpdateUI]).
Proof.
  split_and!.
  - destruct (step_effects cfg st ev)
      as [(_ & _ & ->)|[(Hg & [->|[->|[Hg' ->]]])|(_ & Hg & _)]]; try done.
    + intros [?|[?|?%elem_of_nil]%elem_of_cons]%elem_of_cons; done.
    + by intros ?%elem_of_nil.
    + intros [?|?%elem_of_nil]%elem_of_cons; done.
    + by rewrite Hg.
  - intros Hg Hg'.
    destruct (step_effects cfg st ev)
      as [(_ & _ & ->)|[(Hsame & _)|(_ & Hfalse & _)]]; [|congruence..].
    split_and!.
    + intros [?|[?|?%elem_of_nil]%elem_of_cons]%elem_of_cons; done.
    + intros [?|[?|?%elem_of_nil]%elem_of_cons]%elem_of_cons; done.
    + right. by left.
  - intros x y e -> Hg He Hk Hg'. simpl in *.
    rewrite (handleCanvasClick_accepted cfg x y st e) in * by done.
    by apply accepted_continues.
Qed.

Lemma scoreboard_updates_only_during_play_witness :
  DrawBoard ∉ snd (step (gridConfig 2 2)
                     (run (gridConfig 2 2) ["A"; "B"] (take 3 game2x2))
                     (clickOn (gridConfig 2 2) (vEdge 0 1))).
Proof.
  refine (proj1 (proj1 (proj2 (scoreboard_updates_only_during_play (gridConfig 2 2)
            (run (gridConfig 2 2) ["A"; "B"] (take 3 game2x2))
            (clickOn (gridConfig 2 2) (vEdge 0 1)))) _ _)).
  - vm_compute. reflexivity.
  - vm_compute. reflexivity.
Defined.

Lemma runLog_snoc cfg ps evs ev :
  runLog cfg ps (evs ++ [ev])
  = (fst (step cfg (fst (runLog cfg ps evs)) ev),
     snd (runLog cfg ps evs) ++ snd (step cfg (fst (runLog cfg ps evs)) ev)).
Proof. unfold runLog. by rewrite foldl_snoc. Qed.

Lemma runLog_state cfg ps evs : fst (runLog cfg ps evs) = run cfg ps evs.
Proof.
  induction evs as [|ev evs IH] using rev_ind; [done|].
  rewrite runLog_snoc, run_snoc. simpl. by rewrite IH.
Qed.

Lemma lastDisplay_app l l' :
  lastDisplay (l ++ l')
  = foldl (λ d fx, match fx with SetGameOverDisplay v => Some v | _ => d end)
          (lastDisplay l) l'.
Proof. unfold lastDisplay. by rewrite foldl_app. Qed.

(** X12.  The game-over dialog is shown exactly in a finished game: in every
    state of a game, [gameOver] is true if and only if the last value
    written to the [display] of the dialog is [flex].  (Before the first
    such write the game is running and the dialog is as the page has it.) *)
Theorem dialog_is_shown_iff_game_over cfg ps evs :
  fst (runLog cfg ps evs) = run cfg ps evs
  ∧ (gameOver (run cfg ps evs) = true
     ↔ lastDisplay (snd (runLog cfg ps evs)) = Some "flex").
Proof.
  split; [apply runLog_state|].
  induction evs as [|ev evs IH] using rev_ind; [done|].
  rewrite runLog_snoc, run_snoc, runLog_state. simpl snd.
  rewrite lastDisplay_app.
  destruct (step_effects cfg (run cfg ps evs) ev)
    as [(_ & -> & ->)|[(-> & [->|[->|[_ ->]]])|(_ & -> & ->)]]; simpl; done.
Qed.

(** ** The completion test on its own *)

Lemma has_add k k' st :
  k' ≠ k → has k' (set_edges ({[k]} ∪ edges st) st) = has k' st.
Proof.
  intros Hne. unfold has. simpl. apply bool_decide_ext.
  rewrite elem_of_union, elem_of_singleton. tauto.
Qed.

Lemma checkForCompletedBoxes_add cfg st e :
  legal cfg e →
  checkForCompletedBoxes cfg (set_edges ({[edgeKey e]} ∪ edges st) st) e
  = checkForCompletedBoxes cfg st e.
Proof.
  destruct e as [r c r' c' h]. unfold legal, edgeKey; simpl.
  intros [(-> & _ & _ & -> & ->)|(-> & _ & _ & -> & ->)];
    unfold checkForCompletedBoxes; simpl;
    rewrite !has_add by (rewrite key4_eq_iff; lia); done.
Qed.

(** X13.  [checkForCompletedBoxes] reads only the three other sides.  For an
    edge of the grid it returns at most two boxes: exactly the boxes next to
    the edge whose sides other than the edge itself are all drawn, whether
    or not the edge itself is in the set of drawn edges. *)
Theorem completion_test_reads_the_other_sides cfg st e :
  legal cfg e →
  let cb := checkForCompletedBoxes cfg st e in
  (length cb ≤ 2)%nat
  ∧ (∀ b, b ∈ cb ↔
          b ∈ adjacentCells cfg e
          ∧ ∀ e', e' ∈ cellBounds b → e' ≠ e → edgeKey e' ∈ edges st)
  ∧ checkForCompletedBoxes cfg (set_edges ({[edgeKey e]} ∪ edges st) st) e = cb.
Proof.
  intros He cb.
  assert (cb = completedBy cfg e st) as Hcb.
  { unfold cb. rewrite <- (checkForCompletedBoxes_add cfg st e He).
    rewrite checkForCompletedBoxes_filter;
      [done|done|by apply elem_of_union_l, elem_of_singleton]. }
  split_and!.
  - rewrite Hcb. apply length_completedBy.
  - intros b. rewrite Hcb. unfold completedBy. rewrite list_elem_of_filter.
    split.
    + intros [Hc Hadj]. split; [done|]. intros e' He' Hne.
      pose proof (complete_has _ _ _ Hc He') as [Hk%elem_of_singleton|Hk]%elem_of_union;
        [|done].
      destruct Hne. apply (edgeKey_inj_legal cfg); [|done..].
      apply cellBounds_legal with b; eauto using adjacentCells_inGrid.
    + intros [Hadj Hothers]. split; [|done].
      apply Forall_forall. intros e' He'.
      destruct (decide (e' = e)) as [->|Hne].
      * by apply elem_of_union_l, elem_of_singleton.
      * apply elem_of_union_r. by apply Hothers.
  - by apply checkForCompletedBoxes_add.
Qed.

Lemma completion_test_reads_the_other_sides_witness :
  checkForCompletedBoxes (gridConfig 2 2)
    (set_edges ({[edgeKey (vEdge 0 1)]}
                ∪ edges (run (gridConfig 2 2) ["A"; "B"] (take 3 game2x2)))
       (run (gridConfig 2 2) ["A"; "B"] (take 3 game2x2)))
    (vEdge 0 1)
  = checkForCompletedBoxes (gridConfig 2 2)
      (run (gridConfig 2 2) ["A"; "B"] (take 3 game2x2)) (vEdge 0 1).
Proof.
  refine (proj2 (proj2 (completion_test_reads_the_other_sides (gridConfig 2 2)
            (run (gridConfig 2 2) ["A"; "B"] (take 3 game2x2)) (vEdge 0 1) _))).
  right. simpl. split_and!; lia || done.
Defined.

(** ** Keys *)

(** X14.  The keys identify what they are made from.  Two edge objects with
    the same key have the same four coordinates, two edges of the grid with
    the same key are the same edge, and two boxes with the same key are the
    same box: no two of them collide in the set of edges or in the map of
    owners. *)
Theorem keys_identify_edges_and_boxes cfg :
  (∀ e e', edgeKey e = edgeKey e' →
     r1 e = r1 e' ∧ c1 e = c1 e' ∧ r2 e = r2 e' ∧ c2 e = c2 e')
  ∧ (∀ e e', e ∈ legalEdges cfg → e' ∈ legalEdges cfg →
       edgeKey e = edgeKey e' → e = e')
  ∧ (∀ r c r' c', boxKey r c = boxKey r' c' → r = r' ∧ c = c').
Proof.
  split_and!.
  - intros e e'. apply key4_inj.
  - intros e e' He%elem_of_legalEdges He'%elem_of_legalEdges.
    by apply edgeKey_inj_legal with cfg.
  - apply boxKey_inj.
Qed.

Lemma keys_identify_edges_and_boxes_witness : boxKey 12 3 ≠ boxKey 1 23.
Proof.
  intros H.
  apply (proj2 (proj2 (keys_identify_edges_and_boxes defaultConfig))) in H as [H _].
  discriminate H.
Defined.

(** ** The colours of the lines *)

Lemma ownerColor_owned st k p color :
  boxes st !! k = Some p → ownerColor st k color = playerColor p.
Proof. unfold ownerColor. by intros ->. Qed.

(** X15.  In every state of a game [drawBoard] strokes the four sides of an
    owned box as drawn lines, at the full line width and in the colour of a
    player, never in the colour of free lines.  The top and the left side
    take the colour of the owner of the box.  The bottom and the right side
    take the colour of the owner of the box below, respectively to the
    right, when that box is owned, and the colour of the owner of the box
    otherwise. *)
Theorem owned_box_sides_are_coloured cfg ps evs r c p :
  ps ≠ [] →
  let st := run cfg ps evs in
  inGrid cfg {| box_r := r; box_c := c |} →
  boxes st !! boxKey r c = Some p →
  (∃ colour, playerColor p = Some colour ∧ colour ∈ colors_players
             ∧ colour ≠ colors_line)
  ∧ hEdgeStroke cfg st r c = (playerColor p, inject_Z config_lineWidth)
  ∧ vEdgeStroke cfg st r c = (playerColor p, inject_Z config_lineWidth)
  ∧ hEdgeStroke cfg st (r + 1) c
    = (if r + 1 <? rows cfg - 1
       then ownerColor st (boxKey (r + 1) c) (playerColor p)
       else playerColor p,
       inject_Z config_lineWidth)
  ∧ vEdgeStroke cfg st r (c + 1)
    = (if c + 1 <? cols cfg - 1
       then ownerColor st (boxKey r (c + 1)) (playerColor p)
       else playerColor p,
       inject_Z config_lineWidth).
Proof.
  intros Hne st Hb Hp.
  destruct (board_ok_run cfg ps evs) as [_ HB]. fold st in HB.
  assert (complete (edges st) {| box_r := r; box_c := c |}) as Hc.
  { assert (boxKeyOf {| box_r := r; box_c := c |} ∈ dom (boxes st)) as Hin
      by (by apply elem_of_dom_2 with p).
    apply HB in Hin as (b' & _ & Hc & ->%(inj boxKeyOf)). done. }
  apply complete_iff in Hc as (Htop & Hbottom & Hleft & Hright).
  apply has_true in Htop, Hbottom, Hleft, Hright.
  unfold inGrid in Hb. simpl in Hb.
  split_and!.
  - pose proof (owners_valid_run cfg ps evs _ p Hne Hp) as Hrange.
    unfold playerColor.
    pose proof (Z.rem_bound_pos p (Z.of_nat (length colors_players))
                  ltac:(lia) ltac:(simpl; lia)) as Hrem.
    destruct (Z.ltb_spec (Z.rem p (Z.of_nat (length colors_players))) 0); [lia|].
    destruct (lookup_lt_is_Some_2 colors_players
                (Z.to_nat (Z.rem p (Z.of_nat (length colors_players)))))
      as [colour Hcol]; [lia|].
    exists colour. split; [done|].
    assert (colour ∈ colors_players) as Hin by (by eapply list_elem_of_lookup_2).
    split; [done|]. intros ->. revert Hin.
    apply (bool_decide_eq_false_1 _). vm_compute. reflexivity.
  - unfold hEdgeStroke. rewrite Htop.
    destruct (Z.ltb_spec r (rows cfg - 1)); [|lia].
    by rewrite (ownerColor_owned st _ p).
  - unfold vEdgeStroke. rewrite Hleft.
    destruct (Z.ltb_spec c (cols cfg - 1)); [|lia].
    by rewrite (ownerColor_owned st _ p).
  - unfold hEdgeStroke. rewrite Hbottom.
    destruct (Z.ltb_spec 0 (r + 1)); [|lia].
    replace (r + 1 - 1) with r by lia.
    by rewrite (ownerColor_owned st (boxKey r c) p).
  - unfold vEdgeStroke. rewrite Hright.
    destruct (Z.ltb_spec 0 (c + 1)); [|lia].
    replace (c + 1 - 1) with c by lia.
    by rewrite (ownerColor_owned st (boxKey r c) p).
Qed.

Lemma owned_box_sides_are_coloured_witness :
  hEdgeStroke (gridConfig 2 2) (run (gridConfig 2 2) ["A"; "B"] game2x2) 0 0
  = (Some "#3498db", inject_Z config_lineWidth).
Proof.
  refine (proj1 (proj2
    (owned_box_sides_are_coloured (gridConfig 2 2) ["A"; "B"] game2x2 0 0 1 _ _ _))).
  - discriminate.
  - unfold inGrid. simpl. lia.
  - vm_compute. reflexivity.
Defined.

(** ** Ties *)

(** X16.  Two players cannot tie on a grid with an odd number of boxes, such
    as the four by six dots of the repository: on a grid of at least two by
    two dots with [(rows-1)*(cols-1)] odd, the click that ends a game of two
    players always names a winner, and the winner has more than half of the
    boxes. *)
Theorem two_players_never_tie_on_odd_boxes cfg a b evs ev :
  2 ≤ rows cfg → 2 ≤ cols cfg →
  Z.odd ((rows cfg - 1) * (cols cfg - 1)) = true →
  let st := run cfg [a; b] evs in
  let st' := fst (step cfg st ev) in
  gameOver st = false → gameOver st' = true →
  ∃ w name,
    [a; b] !! Z.to_nat w = Some name
    ∧ (rows cfg - 1) * (cols cfg - 1) < 2 * scoreOf st' w
    ∧ snd (step cfg st ev)
      = [SetWinnerText ("Player " +:+ name +:+ " wins with "
                        +:+ pretty (scoreOf st' w) +:+ " points!");
         SetGameOverDisplay "flex"].
Proof.
  intros Hr Hc Hodd st st' Hg Hg'.
  assert ([a; b] ≠ []) as Hne by done.
  pose proof (scores_ok_run cfg [a; b] (evs ++ [ev]) Hne) as [Hbase _].
  destruct (score_total_bounds cfg [a; b] (evs ++ [ev]) Hr Hc Hne) as (_ & Hfull & _).
  rewrite run_snoc in Hbase, Hfull. fold st in Hbase, Hfull. fold st' in Hbase, Hfull.
  apply Hfull in Hg' as Htot.
  assert (players st' = [a; b]) as Hp by apply Hbase.
  assert (totalScore st' = scoreOf st' 0 + scoreOf st' 1) as Hsum.
  { unfold totalScore. rewrite Hp. change (indices [a; b]) with [0; 1].
    rewrite !fmap_cons, fmap_nil. cbn [foldr]. lia. }
  pose proof (maxScoreOf_ge st' 0) as H0. pose proof (maxScoreOf_ge st' 1) as H1.
  rewrite Hp in H0, H1.
  specialize (H0 ltac:(by left)). specialize (H1 ltac:(right; by left)).
  rewrite (step_ends cfg st ev Hg Hg'). fold st'.
  destruct (winnerMessage_spec [a; b] st' Hne Hbase)
    as [(w & name & Hw & Hname & ->)|[Hlen Htie]].
  - assert (w ∈ winners st') as Hin by (rewrite Hw; by left).
    apply elem_of_winners in Hin as [Hmax Hi]. rewrite Hp in Hi.
    exists w, name. rewrite Hmax. split_and!; [done| |done].
    assert (w = 0 ∨ w = 1) as [ -> | -> ].
    { apply elem_of_indices in Hi. simpl in Hi. lia. }
    + assert (scoreOf st' 1 ≠ maxScoreOf st'); [|lia].
      intros Heq. assert (1 ∈ winners st') as Hin.
      { apply elem_of_winners. split; [done|]. rewrite Hp. right. by left. }
      rewrite Hw in Hin. apply list_elem_of_singleton in Hin. done.
    + assert (scoreOf st' 0 ≠ maxScoreOf st'); [|lia].
      intros Heq. assert (0 ∈ winners st') as Hin.
      { apply elem_of_winners. split; [done|]. rewrite Hp. by left. }
      rewrite Hw in Hin. apply list_elem_of_singleton in Hin. done.
  - exfalso.
    assert (scoreOf st' 0 = maxScoreOf st' ∧ scoreOf st' 1 = maxScoreOf st')
      as [E0 E1].
    { unfold winners in Hlen. rewrite Hp in Hlen.
      change (indices [a; b]) with [0; 1] in Hlen.
      rewrite !filter_cons, filter_nil in Hlen.
      repeat case_decide; simpl in Hlen; lia. }
    rewrite Hsum, E0, E1 in Htot. rewrite <- Htot in Hodd.
    replace (maxScoreOf st' + maxScoreOf st') with (2 * maxScoreOf st') in Hodd by lia.
    by rewrite Z.odd_mul in Hodd.
Qed.

Lemma two_players_never_tie_on_odd_boxes_witness :
  ∃ w name,
    ["A"; "B"] !! Z.to_nat w = Some name
    ∧ (2 - 1) * (2 - 1)
      < 2 * scoreOf (fst (step (gridConfig 2 2)
                            (run (gridConfig 2 2) ["A"; "B"] (take 3 game2x2))
                            (clickOn (gridConfig 2 2) (vEdge 0 1)))) w
    ∧ snd (step (gridConfig 2 2) (run (gridConfig 2 2) ["A"; "B"] (take 3 game2x2))
             (clickOn (gridConfig 2 2) (vEdge 0 1)))
      = [SetWinnerText
           ("Player " +:+ name +:+ " wins with "
            +:+ pretty (scoreOf (fst (step (gridConfig 2 2)
                                        (run (gridConfig 2 2) ["A"; "B"] (take 3 game2x2))
                                        (clickOn (gridConfig 2 2) (vEdge 0 1)))) w)
            +:+ " points!");
         SetGameOverDisplay "flex"].
Proof.
  refine (two_players_never_tie_on_odd_boxes (gridConfig 2 2) "A" "B"
            (take 3 game2x2) (clickOn (gridConfig 2 2) (vEdge 0 1)) _ _ _ _ _).
  - simpl. lia.
  - simpl. lia.
  - reflexivity.
  - vm_compute. reflexivity.
  - vm_compute. reflexivity.
Defined.

(** ** The highlight *)

(** X17.  Only a mouse move and a restart touch the highlight: a click
    and a resize leave [highlightedEdge] as it is and a restart clears it.
    So after a click on the highlighted edge the highlight names a drawn
    edge, which [drawBoard] strokes as a drawn line, in the colour of free
    lines or of an owner, and not as the highlight. *)
Theorem click_keeps_the_highlight cfg st :
  (∀ x y, highlightedEdge (fst (step cfg st (Click x y))) = highlightedEdge st)
  ∧ highlightedEdge (fst (step cfg st Resize)) = highlightedEdge st
  ∧ highlightedEdge (fst (step cfg st Restart)) = None
  ∧ (∀ x y e, gameOver st = false → findNearestEdge cfg st x y = Some e →
       edgeKey e ∉ edges st →
       let st1 := fst (step cfg st (MouseMove x y)) in
       let st2 := fst (step cfg st1 (Click x y)) in
       highlightedEdge st2 = Some e ∧ edgeKey e ∈ edges st2
       ∧ snd (if isHorizontal e then hEdgeStroke cfg st2 (r1 e) (c1 e)
              else vEdgeStroke cfg st2 (r1 e) (c1 e))
         = inject_Z config_lineWidth).
Proof.
  assert (∀ s x y, highlightedEdge (fst (step cfg s (Click x y))) = highlightedEdge s)
    as Hclick.
  { intros s x y. simpl.
    destruct (handleCanvasClick_cases cfg x y s)
      as [[_ ->]|(e & _ & _ & _ & _ & ->)]; [done|].
    by destruct (accepted_frame cfg e s) as (_ & _ & -> & _). }
  split_and!; [apply Hclick|done|done|].
  intros x y e Hg He Hk st1 st2.
  pose proof (findNearestEdge_legal _ _ _ _ _ He) as Hleg.
  assert (has (edgeKey e) st = false) as Hh.
  { apply not_true_iff_false. by rewrite has_true. }
  assert (st1 = set_highlightedEdge (Some e) st) as Hst1.
  { unfold st1. simpl. unfold handleMouseMove. by rewrite Hg, He, Hh. }
  assert (st2 = fst (accepted cfg e st1)) as Hst2.
  { unfold st2. simpl. rewrite (handleCanvasClick_accepted cfg x y st1 e); [done|..].
    - by rewrite Hst1.
    - by rewrite Hst1.
    - by rewrite Hst1. }
  destruct (accepted_frame cfg e st1) as (_ & HE & Hhl & _).
  rewrite <- Hst2 in HE, Hhl.
  assert (edgeKey e ∈ edges st2) as Hin.
  { rewrite HE. by apply elem_of_union_l, elem_of_singleton. }
  split_and!; [by rewrite Hhl, Hst1|done|].
  apply has_true in Hin. destruct e as [r c r' c' h].
  unfold legal in Hleg. simpl in Hleg. unfold edgeKey in Hin. simpl in Hin.
  destruct Hleg as [(-> & _ & _ & -> & ->)|(-> & _ & _ & -> & ->)]; simpl.
  - unfold hEdgeStroke. by rewrite Hin.
  - unfold vEdgeStroke. by rewrite Hin.
Qed.

Lemma click_keeps_the_highlight_witness :
  highlightedEdge
    (fst (step (gridConfig 2 2)
            (fst (step (gridConfig 2 2) (run (gridConfig 2 2) ["A"; "B"] [])
                    (MouseMove (30 # 1) (50 # 1))))
            (Click (30 # 1) (50 # 1)))) = Some (hEdge 0 0).
Proof.
  refine (proj1 (proj2 (proj2 (proj2
    (click_keeps_the_highlight (gridConfig 2 2) (run (gridConfig 2 2) ["A"; "B"] []))))
      (30 # 1) (50 # 1) (hEdge 0 0) _ _ _)).
  - reflexivity.
  - vm_compute. reflexivity.
  - apply (bool_decide_unpack _). vm_compute. exact I.
Defined.

Lemma isHighlighted_legal cfg st e e' :
  legal cfg e → legal cfg e' → highlightedEdge st = Some e →
  isHighlighted st (r1 e') (c1 e') (r2 e') (c2 e') = bool_decide (e' = e).
Proof.
  intros He He' Hh. unfold isHighlighted. rewrite Hh.
  destruct (decide (e' = e)) as [->|Hne].
  - rewrite bool_decide_eq_true_2 by done. by rewrite !Z.eqb_refl.
  - rewrite bool_decide_eq_false_2 by done. apply not_true_iff_false.
    rewrite !andb_true_iff, !Z.eqb_eq. intros [[[? ?] ?] ?]. destruct Hne.
    apply (edgeKey_inj_legal cfg); [done..|]. unfold edgeKey. congruence.
Qed.

(** X18.  Hovering marks one edge.  After a mouse move over a free edge of a
    running game, [drawBoard] strokes that edge, and no other free edge of
    the grid, as the highlight: in the colour of the player to move with the
    half opacity suffix and at one and a half times the line width.  Every
    other free edge is stroked in the faint colour of free lines. *)
Theorem hover_highlights_exactly_one_edge cfg ps evs x y e :
  ps ≠ [] →
  let st := run cfg ps evs in
  gameOver st = false → findNearestEdge cfg st x y = Some e →
  edgeKey e ∉ edges st →
  let st' := fst (handleMouseMove cfg x y st) in
  (∃ colour, playerColor (currentPlayer st) = Some colour
     ∧ edgeStroke cfg st' e
       = (Some (colour +:+ "80"), (inject_Z config_lineWidth * (3 # 2))%Q))
  ∧ (∀ e', e' ∈ legalEdges cfg → edgeKey e' ∉ edges st' → e' ≠ e →
       edgeStroke cfg st' e'
       = (Some (colors_line +:+ "40"), (inject_Z config_lineWidth * (7 # 10))%Q)).
Proof.
  intros Hne st Hg He Hk st'.
  pose proof (findNearestEdge_legal _ _ _ _ _ He) as Hleg.
  assert (has (edgeKey e) st = false) as Hh.
  { apply not_true_iff_false. by rewrite has_true. }
  assert (st' = set_highlightedEdge (Some e) st) as Hst'.
  { unfold st'. unfold handleMouseMove. by rewrite Hg, He, Hh. }
  assert (∀ e', legal cfg e' → edgeKey e' ∉ edges st' →
            edgeStroke cfg st' e' = otherStroke st' (bool_decide (e' = e))) as Hstroke.
  { intros e' He' Hk'.
    assert (has (edgeKey e') st' = false) as Hh'.
    { apply not_true_iff_false. by rewrite has_true. }
    rewrite <- (isHighlighted_legal cfg st' e e' Hleg He') by (by rewrite Hst').
    destruct e' as [r c r' c' h]. unfold legal in He'. simpl in He'.
    unfold edgeKey in Hh'. simpl in Hh'. unfold edgeStroke. simpl.
    destruct He' as [(-> & _ & _ & -> & ->)|(-> & _ & _ & -> & ->)].
    - unfold hEdgeStroke. by rewrite Hh'.
    - unfold vEdgeStroke. by rewrite Hh'. }
  destruct (scores_ok_run cfg ps evs Hne) as [(_ & Hcur & _) _]. fold st in Hcur.
  split.
  - assert (is_Some (playerColor (currentPlayer st))) as [colour Hcol].
    { unfold playerColor.
      pose proof (Z.rem_bound_pos (currentPlayer st)
                    (Z.of_nat (length colors_players))
                    ltac:(lia) ltac:(simpl; lia)) as Hrem.
      destruct (Z.ltb_spec (Z.rem (currentPlayer st)
                              (Z.of_nat (length colors_players))) 0); [lia|].
      apply lookup_lt_is_Some_2. lia. }
    exists colour. split; [done|].
    rewrite Hstroke; [|done|by rewrite Hst'].
    rewrite bool_decide_eq_true_2 by done. unfold otherStroke.
    rewrite Hst'. simpl. by rewrite Hcol.
  - intros e' He'%elem_of_legalEdges Hk' Hne'.
    rewrite Hstroke by done. by rewrite bool_decide_eq_false_2.
Qed.

Lemma hover_highlights_exactly_one_edge_witness :
  ∃ colour, playerColor (currentPlayer (run (gridConfig 2 2) ["A"; "B"] [])) = Some colour
    ∧ edgeStroke (gridConfig 2 2)
        (fst (handleMouseMove (gridConfig 2 2) (30 # 1) (50 # 1)
                (run (gridConfig 2 2) ["A"; "B"] []))) (hEdge 0 0)
      = (Some (colour +:+ "80"), (inject_Z config_lineWidth * (3 # 2))%Q).
Proof.
  refine (proj1 (hover_highlights_exactly_one_edge (gridConfig 2 2) ["A"; "B"] []
                   (30 # 1) (50 # 1) (hEdge 0 0) _ _ _ _)).
  - discriminate.
  - reflexivity.
  - vm_compute. reflexivity.
  - apply (bool_decide_unpack _). vm_compute. exact I.
Defined.
